(** * IPA translator: the transcription engine of [main.py]

    A shallow embedding of the translation core of the IPA translator
    server (dictionary loading, preprocessing, the word-based and the
    character-based paths, the three formatters and the dispatcher) and
    the properties its specification states about them. *)

From Stdlib Require Import NArith Ascii String Lia.
From stdpp Require Import base option list gmap.

Local Open Scope N_scope.

(** ** Python strings

    A Python [str] is a sequence of Unicode code points: [list(s)],
    [s[i:j]], [s.replace] and [s.split] all work code point by code
    point.  A code point is a number, a string a list of them; a
    one-character string is a one-element list. *)

Abbreviation char := N (only parsing).
Abbreviation str := (list N) (only parsing).

(** String literals are written in the source file in UTF-8; [u] decodes
    the bytes of a literal into its code points. *)

Fixpoint bytes_of (s : string) : list N :=
  match s with
  | EmptyString => []
  | String a s' => N_of_ascii a :: bytes_of s'
  end.

Fixpoint utf8_decode (bs : list N) : str :=
  match bs with
  | [] => []
  | b0 :: r0 =>
      if b0 <? 128 then b0 :: utf8_decode r0
      else
        match r0 with
        | [] => []
        | b1 :: r1 =>
            if b0 <? 224 then
              ((b0 - 192) * 64 + (b1 - 128)) :: utf8_decode r1
            else
              match r1 with
              | [] => []
              | b2 :: r2 =>
                  if b0 <? 240 then
                    ((b0 - 224) * 4096 + (b1 - 128) * 64 + (b2 - 128))
                      :: utf8_decode r2
                  else
                    match r2 with
                    | [] => []
                    | b3 :: r3 =>
                        ((b0 - 240) * 262144 + (b1 - 128) * 4096
                         + (b2 - 128) * 64 + (b3 - 128)) :: utf8_decode r3
                    end
              end
        end
  end.

Definition u (s : string) : str := utf8_decode (bytes_of s).

(** *** [str.replace]

    [s.replace(old, new)] replaces the occurrences of [old] found
    scanning from the left, without overlap.  [starts_with old s] is
    [s.startswith(old)]. *)

Fixpoint starts_with (old s : str) : bool :=
  match old, s with
  | [], _ => true
  | _ :: _, [] => false
  | a :: old', c :: s' => (a =? c) && starts_with old' s'
  end.

(** [skip] counts the characters of a match that are still to be passed
    over. *)
Fixpoint replace_from (old new : str) (skip : nat) (s : str) : str :=
  match s with
  | [] => []
  | c :: rest =>
      match skip with
      | S k => replace_from old new k rest
      | O =>
          if starts_with old s
          then new ++ replace_from old new (length old - 1) rest
          else c :: replace_from old new 0 rest
      end
  end.

(** With an empty [old], Python puts [new] before every character and at
    the end. *)
Definition replace (old new s : str) : str :=
  match old with
  | [] => new ++ flat_map (fun c => c :: new) s
  | _ :: _ => replace_from old new 0 s
  end.

(** *** [sep.join(parts)] *)

Fixpoint join (sep : str) (parts : list str) : str :=
  match parts with
  | [] => []
  | [p] => p
  | p :: ps => p ++ sep ++ join sep ps
  end.

(** ** Formatting helpers *)

(** [_format_ipa_num]: tone symbols to numeric tones. *)
Definition _format_ipa_num (txt : str) : str :=
  replace (u ":") (u "")
    (replace (u "˩") (u "1")
       (replace (u "˨") (u "2")
          (replace (u "˧") (u "3")
             (replace (u "˥") (u "5") txt)))).

(** [_format_jyutping]: the list of replacements, applied in order. *)
Definition replacements : list (str * str) :=
  [ (u "˥˧", u "1"); (u "˥˥", u "1");
    (u "˧˥", u "2"); (u "˧˥", u "2");
    (u "˧˧", u "3");
    (u "˨˩", u "4"); (u "˩˩", u "4");
    (u "˩˧", u "5"); (u "˨˧", u "5");
    (u "˨˨", u "6");
    (u "k˥", u "k7"); (u "k˧", u "k8"); (u "k˨", u "k9");
    (u "t˥", u "t7"); (u "t˧", u "t8"); (u "t˨", u "t9");
    (u "p˥", u "p7"); (u "p˧", u "p8"); (u "p˨", u "p9");
    (u "˥", u "1"); (u "˧", u "3"); (u "˨", u "6");
    (u ":", u "") ].

Definition apply_replacements (rs : list (str * str)) (txt : str) : str :=
  fold_left (fun txt r => replace r.1 r.2 txt) rs txt.

Definition _format_jyutping (txt : str) : str :=
  apply_replacements replacements txt.

(** [_format_ipa_org]: original format, no changes. *)
Definition _format_ipa_org (txt : str) : str := txt.

(** ** Preprocessing of a word *)

(** [str.maketrans(x, y)]: the table sending the i-th character of [x]
    to the i-th of [y]; a later pair overrides an earlier one. *)
Definition maketrans (x y : str) : gmap N N :=
  list_to_map (reverse (zip x y)).

(** [text.translate(table)]: characters without an entry are kept. *)
Definition translate (table : gmap N N) (text : str) : str :=
  (fun c => default c (table !! c)) <$> text.

Definition newline : char := 10.

(** [_preprocess_eng]: A-Z to a-z, then ['.'], newline and [','] are
    removed, in this order. *)
Definition _preprocess_eng (text : str) : str :=
  let text :=
    translate (maketrans (u "ABCDEFGHIJKLMNOPQRSTUVWXYZ")
                         (u "abcdefghijklmnopqrstuvwxyz")) text in
  fold_left (fun text ch => replace [ch] (u "") text)
            (u "." ++ [newline] ++ u ",") text.

(** ** [str.split()]

    Without a separator, [split] cuts at runs of whitespace and returns
    no empty string.  Whitespace is what [str.isspace] accepts. *)
Definition is_space (c : char) : bool :=
  ((9 <=? c) && (c <=? 13)) || ((28 <=? c) && (c <=? 32))
  || (c =? 133) || (c =? 160) || (c =? 5760)
  || ((8192 <=? c) && (c <=? 8202))
  || (c =? 8232) || (c =? 8233) || (c =? 8239) || (c =? 8287)
  || (c =? 12288).

(** [cur] holds the characters of the word being read, last one first. *)
Fixpoint split_from (cur : str) (s : str) : list str :=
  match s with
  | [] => match cur with [] => [] | _ :: _ => [reverse cur] end
  | c :: s' =>
      if is_space c then
        match cur with
        | [] => split_from [] s'
        | _ :: _ => reverse cur :: split_from [] s'
        end
      else split_from (c :: cur) s'
  end.

Definition split (s : str) : list str := split_from [] s.

(** ** The dictionary store *)

(** The registry of languages: code, display name and data file. *)
Definition source_dict : gmap (list N) (list N * list N) :=
  list_to_map
    [ (u "yue",     (u "Cantonese",       u "yue.json"));
      (u "en_UK",   (u "English (UK)",    u "en_UK.json"));
      (u "en_US",   (u "English (US)",    u "en_US.json"));
      (u "eo",      (u "Esperanto",       u "eo.json"));
      (u "fr_FR",   (u "French (FR)",     u "fr_FR.json"));
      (u "fr_QC",   (u "French (QC)",     u "fr_QC.json"));
      (u "ja",      (u "Japanese",        u "ja.json"));
      (u "zh_hans", (u "Mandarin (Hans)", u "zh_hans.json"));
      (u "zh_hant", (u "Mandarin (Hant)", u "zh_hant.json"));
      (u "fa",      (u "Persian",         u "fa.json"));
      (u "es_ES",   (u "Spanish (ES)",    u "es_ES.json"));
      (u "es_MX",   (u "Spanish (MX)",    u "es_MX.json")) ].

Definition available_formats : list str := [u "org"; u "num"; u "Jyutping"].

(** The exceptions the core can raise. *)
Inductive exn : Type :=
  | ValueError (msg : str)
  | FileNotFoundError (path : str)
  | JSONDecodeError (path : str).

(** A data file either parses into a flat mapping from token to IPA or
    does not parse; a path without a file is absent from the store. *)
Inductive file : Type :=
  | Malformed
  | Json (d : gmap (list N) (list N)).

(** A computation reads the file store and returns an outcome together
    with the paths it opened, in order.  [OutOfFuel] is the outcome of a
    loop cut short by its bound. *)
Inductive outcome (A : Type) : Type :=
  | Ok (a : A)
  | Raise (e : exn)
  | OutOfFuel.
Arguments Ok {A} a.
Arguments Raise {A} e.
Arguments OutOfFuel {A}.

Definition io (A : Type) : Type := gmap (list N) file -> outcome A * list str.

Definition io_ret {A} (a : A) : io A := fun _ => (Ok a, []).
Definition io_raise {A} (e : exn) : io A := fun _ => (Raise e, []).
Definition io_bind {A B} (m : io A) (k : A -> io B) : io B :=
  fun fs =>
    match m fs with
    | (Ok a, log) => let '(r, log') := k a fs in (r, log ++ log')
    | (Raise e, log) => (Raise e, log)
    | (OutOfFuel, log) => (OutOfFuel, log)
    end.

Notation "'let*' x := m 'in' k" := (io_bind m (fun x => k))
  (at level 10, x name, m at level 100, k at level 200).

(** [json.load] on the file opened at [path]. *)
Definition open_json (path : str) : io (gmap (list N) (list N)) :=
  fun fs =>
    match fs !! path with
    | None => (Raise (FileNotFoundError path), [path])
    | Some Malformed => (Raise (JSONDecodeError path), [path])
    | Some (Json d) => (Ok d, [path])
    end.

Definition _load_ipa_dict (lang_code : str) : io (gmap (list N) (list N)) :=
  match source_dict !! lang_code with
  | None => io_raise (ValueError (u "Unsupported language code: " ++ lang_code))
  | Some (_, filename) =>
      let json_path := u "data/" ++ filename in
      open_json json_path
  end.

(** ** The translation paths *)

(** What a dictionary hit appends: [f"{tok}/{ipa}/"] when the word form
    is shown, [f"/{ipa}/"] otherwise. *)
Definition hit_part (show_word_form : bool) (tok ipa : str) : str :=
  if show_word_form then tok ++ u "/" ++ ipa ++ u "/"
  else u "/" ++ ipa ++ u "/".

(** *** Word-based path *)

(** One turn of the [for word in words] loop. *)
Definition en_body (ipa_dict : gmap (list N) (list N)) (show_word_form : bool)
    (result_parts : list str) (word : str) : list str :=
  if decide (word = []) then result_parts
  else
    let t_word := _preprocess_eng word in
    match ipa_dict !! t_word with
    | Some ipa => result_parts ++ [hit_part show_word_form t_word ipa]
    | None => result_parts ++ [word]
    end.

Definition en_result (ipa_dict : gmap (list N) (list N)) (show_word_form : bool)
    (input_string : str) : str :=
  let words := split input_string in
  let result_parts := fold_left (en_body ipa_dict show_word_form) words [] in
  join (u " ") result_parts.

Definition _translate_to_ipa_en (input_string lang_code : str)
    (show_word_form : bool) : io str :=
  let* ipa_dict := _load_ipa_dict lang_code in
  io_ret (en_result ipa_dict show_word_form input_string).

(** *** Character-based path *)

(** The candidates at cursor [i]: [chars[i:i+L]] for [L] in
    [range(1, 7)] with [i + L <= len(chars)]. *)
Definition candidates (chars : str) (i : nat) : list str :=
  (fun L => take L (drop i chars))
    <$> filter (fun L => (i + L <= length chars)%nat) (seq 1 6).

(** The [for cand in reversed(candidates)] loop with its [break]. *)
Definition find_match (ipa_dict : gmap (list N) (list N)) (chars : str)
    (i : nat) : option str :=
  find (fun cand => bool_decide (is_Some (ipa_dict !! cand)))
       (reverse (candidates chars i)).

(** The search for words is always allowed. *)
Definition allow_words_search : bool := true.

(** One turn of the [while] loop at cursor [i], where [ch = chars[i]]:
    the new cursor and the new [result_parts].  [ipa_dict[match]] is
    read only for a [match] found in the dictionary. *)
Definition zh_body (ipa_dict : gmap (list N) (list N)) (show_word_form : bool)
    (chars : str) (i : nat) (ch : char) (result_parts : list str)
    : nat * list str :=
  let no_match := ((i + 1)%nat, result_parts ++ [[ch]]) in
  match ipa_dict !! [ch] with
  | Some ipa =>
      ((i + 1)%nat, result_parts ++ [hit_part show_word_form [ch] ipa])
  | None =>
      if allow_words_search then
        match find_match ipa_dict chars i with
        | Some ((_ :: _) as match_) =>
            let ipa := ipa_dict !!! match_ in
            ((i + length match_)%nat,
             result_parts ++ [hit_part show_word_form match_ ipa])
        | _ => no_match
        end
      else no_match
  end.

(** [while i < len(chars)]: [chars !! i] is [chars[i]] when
    [i < len(chars)] and nothing otherwise, which ends the loop.  The
    loop runs at most [fuel] turns. *)
Fixpoint zh_while (fuel : nat) (ipa_dict : gmap (list N) (list N))
    (show_word_form : bool) (chars : str) (i : nat)
    (result_parts : list str) {struct fuel} : option (list str) :=
  match chars !! i with
  | None => Some result_parts
  | Some ch =>
      match fuel with
      | O => None
      | S fuel' =>
          let '(i', result_parts') :=
            zh_body ipa_dict show_word_form chars i ch result_parts in
          zh_while fuel' ipa_dict show_word_form chars i' result_parts'
      end
  end.

(** [raw_result]: the loop from cursor 0, then ["".join(result_parts)]. *)
Definition zh_raw_result (ipa_dict : gmap (list N) (list N))
    (show_word_form : bool) (input_string : str) : option str :=
  let chars := input_string in
  join (u "") <$> zh_while (length chars) ipa_dict show_word_form chars 0 [].

(** The choice of the output format. *)
Definition zh_format (output_format : str) (raw_result : str) : str :=
  if decide (output_format = u "num") then _format_ipa_num raw_result
  else if decide (output_format = u "jyutping") then _format_jyutping raw_result
  else _format_ipa_org raw_result.

Definition _translate_to_ipa_zh (input_string lang_code : str)
    (show_word_form : bool) (output_format : str) : io str :=
  let* ipa_dict := _load_ipa_dict lang_code in
  match zh_raw_result ipa_dict show_word_form input_string with
  | Some raw_result => io_ret (zh_format output_format raw_result)
  | None => fun _ => (OutOfFuel, [])
  end.

(** ** The dispatcher *)

Definition translate_to_ipa (input_string lang_code : str)
    (show_word_form : bool) (output_format : str) : io str :=
  if decide (lang_code ∈ [u "zh_hans"; u "yue"; u "zh_hant"])
  then _translate_to_ipa_zh input_string lang_code show_word_form output_format
  else _translate_to_ipa_en input_string lang_code show_word_form.

(** A store with two small dictionaries, for the examples. *)
Definition demo_fs : gmap (list N) file :=
  list_to_map
    [ (u "data/yue.json",
       Json (list_to_map [ (u "中", u "tsʊŋ˥"); (u "中文", u "tsʊŋ˥ mɐn˨˩");
                           (u "文", u "mɐn˨˩") ]));
      (u "data/en_US.json",
       Json (list_to_map [ (u "hello", u "hə.ˈloʊ") ])) ].

(** Dictionaries for the examples of longest match and of the word-based
    path. *)
Definition abc_dict : gmap (list N) (list N) :=
  list_to_map [ (u "a", u "x"); (u "ab", u "y"); (u "abc", u "z") ].

Definition ab_abc_dict : gmap (list N) (list N) :=
  list_to_map [ (u "ab", u "y"); (u "abc", u "z") ].

Definition two_six_dict : gmap (list N) (list N) :=
  list_to_map [ (u "bc", u "y"); (u "bcdefg", u "z") ].

Definition slashed_hello_dict : gmap (list N) (list N) :=
  list_to_map [ (u "hello", u "/hə.ˈloʊ/") ].

Definition hello_dict : gmap (list N) (list N) :=
  list_to_map [ (u "hello", u "hə.ˈloʊ") ].

(** ** The routes *)

(** The registry as it is written, entry after entry:
    [source_dict.keys()] lists the codes in this order. *)
Definition source_entries : list (list N * (list N * list N)) :=
  [ (u "yue",     (u "Cantonese",       u "yue.json"));
    (u "en_UK",   (u "English (UK)",    u "en_UK.json"));
    (u "en_US",   (u "English (US)",    u "en_US.json"));
    (u "eo",      (u "Esperanto",       u "eo.json"));
    (u "fr_FR",   (u "French (FR)",     u "fr_FR.json"));
    (u "fr_QC",   (u "French (QC)",     u "fr_QC.json"));
    (u "ja",      (u "Japanese",        u "ja.json"));
    (u "zh_hans", (u "Mandarin (Hans)", u "zh_hans.json"));
    (u "zh_hant", (u "Mandarin (Hant)", u "zh_hant.json"));
    (u "fa",      (u "Persian",         u "fa.json"));
    (u "es_ES",   (u "Spanish (ES)",    u "es_ES.json"));
    (u "es_MX",   (u "Spanish (MX)",    u "es_MX.json")) ].

(** What a route gives back: a reply, or an [HTTPException] with its
    status code and detail ([HttpOutOfFuel] stands for a loop cut short
    by its bound). *)
Inductive http (A : Type) : Type :=
  | Reply (a : A)
  | HTTPException (status_code : nat) (detail : list N)
  | HttpOutOfFuel.
Arguments Reply {A} a.
Arguments HTTPException {A} status_code detail.
Arguments HttpOutOfFuel {A}.

(** [list_all_format]: the formats, under the key ["formats"]. *)
Definition list_all_format : http (list (list N)) :=
  match available_formats with
  | [] =>
      HTTPException 500
        (u "No formats are configured – internal configuration error.")
  | _ :: _ => Reply available_formats
  end.

(** [list_all_language]: the codes, under the key ["languages"]. *)
Definition list_all_language : http (list (list N)) :=
  let lang_key := source_entries.*1 in
  match lang_key with
  | [] =>
      HTTPException 500
        (u "Language mapping is empty – internal configuration error.")
  | _ :: _ => Reply lang_key
  end.

(** The request and the response of the [/ipa] route.  An optional
    field is absent ([None]) or present. *)
Record IpaRequest : Type := {
  input_string : list N;
  lang_code : list N;
  format : option (list N);
  show_word_form : option bool
}.

Record IpaResponse : Type := {
  ipa : list N;
  response_format : list N
}.

(** The text of a list of strings in an f-string, for strings in which
    nothing needs escaping (the codes of the registry are such). *)
Definition list_repr (l : list (list N)) : list N :=
  u "[" ++ join (u ", ") ((fun k => u "'" ++ k ++ u "'") <$> l) ++ u "]".

Section routes.
(** The text of the error raised by [json.load] on the file at a path;
    it depends on what the file holds. *)
Variable json_error_text : list N -> list N.

(** [str(exc)]. *)
Definition exn_str (exc : exn) : list N :=
  match exc with
  | ValueError msg => msg
  | FileNotFoundError path =>
      u "[Errno 2] No such file or directory: '" ++ path ++ u "'"
  | JSONDecodeError path => json_error_text path
  end.

(** [get_ipa].  An absent [show_word_form] counts as false where it is
    tested.  An absent [format] equals neither ["num"] nor ["jyutping"]
    where it is compared, as the empty string does; it is passed on as
    such.  [payload.format or ""] is the format when it is present and
    not empty, and the empty string otherwise. *)
Definition get_ipa (payload : IpaRequest)
    : gmap (list N) file -> http IpaResponse * list (list N) :=
  fun fs =>
    match source_dict !! lang_code payload with
    | None =>
        (HTTPException 400
           (u "Unsupported language code " ++ [34] ++ lang_code payload
              ++ [34] ++ u ". " ++ u "Available codes: "
              ++ list_repr source_entries.*1),
         [])
    | Some _ =>
        match translate_to_ipa (input_string payload) (lang_code payload)
                (default false (show_word_form payload))
                (default (u "") (format payload)) fs with
        | (Ok ipa_result, log) =>
            (Reply {| ipa := ipa_result;
                      response_format := default (u "") (format payload) |},
             log)
        | (Raise exc, log) =>
            (HTTPException 500 (u "IPA translation failed: " ++ exn_str exc),
             log)
        | (OutOfFuel, log) => (HttpOutOfFuel, log)
        end
    end.
End routes.

(** * The specification's wording

    The transformations as the specification describes them, to be
    compared with the functions above. *)

(** Numeric format: what becomes of one character. *)
Definition numeric_char (c : char) : str :=
  if decide ([c] = u "˥") then u "5"
  else if decide ([c] = u "˧") then u "3"
  else if decide ([c] = u "˨") then u "2"
  else if decide ([c] = u "˩") then u "1"
  else if decide ([c] = u ":") then []
  else [c].

Definition numeric_spec (s : str) : str := flat_map numeric_char s.

(** Normalisation of a word: a Latin uppercase letter becomes its
    lowercase counterpart; period, comma and line break disappear. *)
Definition is_upper (c : char) : bool := (65 <=? c) && (c <=? 90).

Definition lower (c : char) : char := if is_upper c then c + 32 else c.

Definition normalize_char (c : char) : str :=
  if decide (c ∈ u ".," ++ [newline]) then [] else [lower c].

Definition normalize_spec (s : str) : str := flat_map normalize_char s.

(** A character is normal when it is no uppercase letter and none of the
    three removed characters. *)
Definition is_normal (c : N) : Prop :=
  is_upper c = false /\ c ∉ u ".," ++ [newline].

(** Jyutping format: the ordered rules. *)
Definition contour_rules : list (str * str) :=
  [ (u "˥˧", u "1"); (u "˥˥", u "1"); (u "˧˥", u "2"); (u "˧˧", u "3");
    (u "˨˩", u "4"); (u "˩˩", u "4"); (u "˩˧", u "5"); (u "˨˧", u "5");
    (u "˨˨", u "6") ].

(** A stop consonant followed by a level tone: the consonant stays and
    the tone becomes 7, 8 or 9. *)
Definition stop_rules : list (str * str) :=
  flat_map (fun k =>
              (fun tone : str * str => (k ++ tone.1, k ++ tone.2))
                <$> [ (u "˥", u "7"); (u "˧", u "8"); (u "˨", u "9") ])
           [u "k"; u "t"; u "p"].

Definition single_rules : list (str * str) :=
  [ (u "˥", u "1"); (u "˧", u "3"); (u "˨", u "6") ].

Definition jyutping_spec_rules : list (str * str) :=
  contour_rules ++ stop_rules ++ single_rules ++ [ (u ":", u "") ].

Definition jyutping_spec (s : str) : str :=
  apply_replacements jyutping_spec_rules s.

(** Character-based segmentation.  [Segmented d show s out]: [out] is
    what the steps of the specification produce on the input [s], the
    cursor standing at the head of [s].
    - step 1: the character at the cursor is a key; its IPA is emitted
      and the cursor moves by one;
    - steps 2 and 3: otherwise the candidates of lengths 1 to 6 that fit
      in the remaining input are tried from the longest; the first one
      found is emitted and the cursor moves by its length;
    - step 4: when none is found, the character is copied and the cursor
      moves by one.
    The pieces are concatenated without separator. *)
Inductive Segmented (d : gmap (list N) (list N)) (show : bool)
    : list N -> list N -> Prop :=
  | seg_end : Segmented d show [] []
  | seg_direct c rest ipa out :
      d !! [c] = Some ipa ->
      Segmented d show rest out ->
      Segmented d show (c :: rest) (hit_part show [c] ipa ++ out)
  | seg_longest c rest L ipa out :
      d !! [c] = None ->
      (1 <= L <= 6)%nat ->
      (L <= length (c :: rest))%nat ->
      d !! take L (c :: rest) = Some ipa ->
      (forall L', (L < L' <= 6)%nat -> (L' <= length (c :: rest))%nat ->
                  d !! take L' (c :: rest) = None) ->
      Segmented d show (drop L (c :: rest)) out ->
      Segmented d show (c :: rest)
                (hit_part show (take L (c :: rest)) ipa ++ out)
  | seg_copy c rest out :
      d !! [c] = None ->
      (forall L, (1 <= L <= 6)%nat -> (L <= length (c :: rest))%nat ->
                 d !! take L (c :: rest) = None) ->
      Segmented d show rest out ->
      Segmented d show (c :: rest) (c :: out).

(** Word-based path.  The input is cut at every whitespace character
    and the empty tokens are dropped; a token whose normal form is a key
    becomes its IPA between slashes, preceded by the normal form when
    the word form is shown; any other token stays as it is; the pieces
    are joined by one space. *)
Fixpoint fields (s : list N) : list (list N) :=
  match s with
  | [] => [[]]
  | c :: s' =>
      if is_space c then [] :: fields s'
      else
        match fields s' with
        | w :: ws => (c :: w) :: ws
        | [] => [[c]]
        end
  end.

Definition tokens_spec (s : list N) : list (list N) :=
  filter (fun w => w <> []) (fields s).

Definition word_piece (d : gmap (list N) (list N)) (show : bool)
    (tok : list N) : list N :=
  match d !! _preprocess_eng tok with
  | Some ipa =>
      if show then _preprocess_eng tok ++ u "/" ++ ipa ++ u "/"
      else u "/" ++ ipa ++ u "/"
  | None => tok
  end.

Definition word_path_spec (d : gmap (list N) (list N)) (show : bool)
    (s : list N) : list N :=
  join (u " ") (word_piece d show <$> tokens_spec s).

(** * Properties *)

(** ** The definitions at work *)

Example u_ascii : u "k7" = [107; 55].
Proof. reflexivity. Qed.

Example u_tone_glyphs : u "˥˧˨˩" = [741; 743; 744; 745].
Proof. reflexivity. Qed.

Example u_cjk : u "中" = [20013].
Proof. reflexivity. Qed.

Example replace_overlap : replace (u "aa") (u "b") (u "aaaaa") = u "bba".
Proof. reflexivity. Qed.

Example replace_empty_old : replace (u "") (u "-") (u "abc") = u "-a-b-c-".
Proof. reflexivity. Qed.

Example format_num_example : _format_ipa_num (u "t˥a˧:") = u "t5a3".
Proof. reflexivity. Qed.

Example format_jyutping_example :
  _format_jyutping (u "jɐt˥ ji:˨˨ sa:m˥˧") = u "jɐt7 ji6 sam1".
Proof. reflexivity. Qed.

Example preprocess_example : _preprocess_eng (u "Hello,") = u "hello".
Proof. reflexivity. Qed.

Example split_example :
  split (u "  hello   xyz123 ") = [u "hello"; u "xyz123"].
Proof. reflexivity. Qed.

Example translate_en_example :
  translate_to_ipa (u "Hello, xyz123") (u "en_US") false (u "org") demo_fs
  = (Ok (u "/hə.ˈloʊ/ xyz123"), [u "data/en_US.json"]).
Proof. vm_compute. reflexivity. Qed.

Example translate_zh_example :
  translate_to_ipa (u "中 文!") (u "yue") true (u "num") demo_fs
  = (Ok (u "中/tsʊŋ5/ 文/mɐn21/!"), [u "data/yue.json"]).
Proof. vm_compute. reflexivity. Qed.

(** ** [str.replace] with short patterns *)

Ltac lits :=
  repeat match goal with
         | |- context [u ?s] =>
             let v := eval vm_compute in (u s) in change (u s) with v
         end.

(** Replacing a single character acts on each character separately. *)
Lemma replace_single (a : char) (new s : str) :
  replace [a] new s = flat_map (fun c => if a =? c then new else [c]) s.
Proof.
  unfold replace.
  induction s as [|c s IH]; [reflexivity|].
  cbn [replace_from starts_with flat_map length].
  rewrite andb_true_r. change (1 - 1)%nat with 0%nat.
  destruct (a =? c); rewrite IH; reflexivity.
Qed.

Section two_char_pattern.
(** The pattern [a b], replaced by one character [c] that is neither
    [a] nor [b]. *)
Variables a b c : char.
Hypothesis Hca : c ≠ a.
Hypothesis Hcb : c ≠ b.

Let g (s : str) : str := replace [a; b] [c] s.

Lemma replace_pair_nil : g [] = [].
Proof. reflexivity. Qed.

Lemma replace_pair_one x : g [x] = [x].
Proof.
  unfold g, replace. cbn. rewrite andb_false_r. reflexivity.
Qed.

Lemma replace_pair_hit s : g (a :: b :: s) = c :: g s.
Proof.
  unfold g, replace. cbn. rewrite !N.eqb_refl. reflexivity.
Qed.

Lemma replace_pair_miss x t :
  (a =? x) && starts_with [b] t = false -> g (x :: t) = x :: g t.
Proof.
  unfold g, replace. cbn [replace_from starts_with].
  destruct t as [|y t]; cbn [starts_with].
  - intros _. rewrite andb_false_r. reflexivity.
  - intros ->. reflexivity.
Qed.

Lemma replace_pair_head y s :
  y ≠ b -> starts_with [b] (g (y :: s)) = false.
Proof.
  intros Hy. destruct s as [|z s].
  - rewrite replace_pair_one. cbn. rewrite andb_true_r.
    apply N.eqb_neq. congruence.
  - destruct (decide (y = a ∧ z = b)) as [[-> ->]|Hn].
    + rewrite replace_pair_hit. cbn. rewrite andb_true_r.
      apply N.eqb_neq. congruence.
    + rewrite replace_pair_miss.
      * cbn. rewrite andb_true_r. apply N.eqb_neq. congruence.
      * cbn. rewrite andb_true_r. apply andb_false_iff.
        rewrite !N.eqb_neq.
        destruct (decide (a = y)) as [<-|]; [right|left; done].
        intros <-. apply Hn. done.
Qed.

(** Once every [a b] is replaced, none is left: a second pass changes
    nothing. *)
Lemma replace_pair_idem s : g (g s) = g s.
Proof.
  assert (H : forall n s, (length s <= n)%nat -> g (g s) = g s).
  { clear s. induction n as [|n IH]; intros s Hn.
    - destruct s; [reflexivity | cbn in Hn; lia].
    - destruct s as [|x [|y s]].
      + reflexivity.
      + rewrite !replace_pair_one. reflexivity.
      + cbn in Hn.
        destruct (decide (x = a ∧ y = b)) as [[-> ->]|Hxy].
        * rewrite replace_pair_hit.
          rewrite replace_pair_miss.
          -- rewrite IH by lia. reflexivity.
          -- apply andb_false_iff. left. apply N.eqb_neq. congruence.
        * assert (Hm : (a =? x) && starts_with [b] (y :: s) = false).
          { cbn. rewrite andb_true_r. apply andb_false_iff.
            rewrite !N.eqb_neq.
            destruct (decide (a = x)) as [<-|]; [right|left; done].
            intros <-. apply Hxy. done. }
          rewrite (replace_pair_miss x (y :: s) Hm).
          rewrite replace_pair_miss.
          -- rewrite IH by (cbn; lia). reflexivity.
          -- apply andb_false_iff.
             destruct (decide (a = x)) as [<-|Hax].
             ++ right. apply replace_pair_head.
                intros ->. apply Hxy. done.
             ++ left. apply N.eqb_neq. done. }
  apply (H (length s)). lia.
Qed.
End two_char_pattern.

(** ** The formatters *)

Lemma numeric_char_step (c : char) :
  flat_map (fun x => if 58 =? x then [] else [x])
    (flat_map (fun x => if 745 =? x then [49] else [x])
       (flat_map (fun x => if 744 =? x then [50] else [x])
          (flat_map (fun x => if 743 =? x then [51] else [x])
             (if 741 =? c then [53] else [c]))))
  = numeric_char c.
Proof.
  unfold numeric_char. lits.
  destruct (N.eqb_spec 741 c) as [<-|H1]; [reflexivity|].
  cbn [flat_map app].
  destruct (N.eqb_spec 743 c) as [<-|H2]; [reflexivity|].
  cbn [flat_map app].
  destruct (N.eqb_spec 744 c) as [<-|H3]; [reflexivity|].
  cbn [flat_map app].
  destruct (N.eqb_spec 745 c) as [<-|H4]; [reflexivity|].
  cbn [flat_map app].
  destruct (N.eqb_spec 58 c) as [<-|H5]; [reflexivity|].
  cbn [app]. repeat case_decide; congruence.
Qed.

(** C5. The numeric formatter replaces each tone glyph ˥ ˧ ˨ ˩ by the
    digit 5 3 2 1, removes every colon and leaves every other character
    as it is; it sends ["t˥a˧:"] to ["t5a3"]. *)
Theorem format_ipa_num_spec :
  (forall txt : str, _format_ipa_num txt = numeric_spec txt)
  /\ _format_ipa_num (u "t˥a˧:") = u "t5a3".
Proof.
  split; [|reflexivity].
  intros txt. unfold _format_ipa_num, numeric_spec. lits.
  rewrite !replace_single.
  induction txt as [|c txt IH]; [reflexivity|].
  cbn [flat_map]. rewrite !flat_map_app, IH.
  f_equal. apply numeric_char_step.
Qed.

(** ** The preprocessor *)

(** A property checked on every code point below a bound holds below
    that bound. *)
Lemma below_forallb (P : N -> bool) (n : nat) :
  forallb P (N.of_nat <$> seq 0 n) = true ->
  forall c, c < N.of_nat n -> P c = true.
Proof.
  intros H c Hc. rewrite forallb_forall in H. apply H.
  apply in_map_iff. exists (N.to_nat c). split; [lia|].
  apply in_seq. lia.
Qed.

Lemma maketrans_absent (x y : str) (c : char) :
  length x = length y -> c ∉ x -> maketrans x y !! c = None.
Proof.
  intros Hlen Hc. unfold maketrans.
  apply not_elem_of_list_to_map_1.
  rewrite fmap_reverse, elem_of_reverse, fst_zip by lia. exact Hc.
Qed.

(** The translation table sends A-Z to a-z and has no other entry. *)
Lemma lower_table (c : char) :
  default c (maketrans (u "ABCDEFGHIJKLMNOPQRSTUVWXYZ")
                       (u "abcdefghijklmnopqrstuvwxyz") !! c) = lower c.
Proof.
  destruct (decide (c < 128)) as [Hc|Hc].
  - apply N.eqb_eq.
    apply (below_forallb
             (fun c => default c (maketrans (u "ABCDEFGHIJKLMNOPQRSTUVWXYZ")
                          (u "abcdefghijklmnopqrstuvwxyz") !! c) =? lower c)
             128); [vm_compute; reflexivity | exact Hc].
  - rewrite maketrans_absent.
    + unfold lower, is_upper.
      destruct (N.leb_spec c 90); [lia|]. rewrite andb_false_r. reflexivity.
    + vm_compute. reflexivity.
    + lits. intros Hin. apply list_elem_of_In in Hin. cbn in Hin.
      repeat (destruct Hin as [Hin|Hin]; [lia|]). exact Hin.
Qed.

Lemma normalize_char_step (c : char) :
  flat_map (fun x => if 44 =? x then [] else [x])
    (flat_map (fun x => if 10 =? x then [] else [x])
       (if 46 =? lower c then [] else [lower c]))
  = normalize_char c.
Proof.
  assert (Hl : lower c = c \/ 97 <= lower c).
  { unfold lower. destruct (is_upper c) eqn:Hu; [right|left; reflexivity].
    unfold is_upper in Hu. apply andb_true_iff in Hu as [Hu _].
    apply N.leb_le in Hu. lia. }
  unfold normalize_char. lits. unfold newline. cbn [app].
  case_decide as Hin.
  - assert (Hc : c = 46 \/ c = 44 \/ c = 10).
    { rewrite !elem_of_cons, elem_of_nil in Hin. tauto. }
    destruct Hc as [->|[->| ->]]; reflexivity.
  - assert (c ≠ 46 /\ c ≠ 44 /\ c ≠ 10) as (H1 & H2 & H3).
    { repeat split; intros ->; apply Hin; rewrite !elem_of_cons; tauto. }
    destruct (N.eqb_spec 46 (lower c)); [lia|]. cbn [flat_map app].
    destruct (N.eqb_spec 10 (lower c)); [lia|]. cbn [flat_map app].
    destruct (N.eqb_spec 44 (lower c)); [lia|]. reflexivity.
Qed.

(** C6. The preprocessor is a total function on strings (the empty one
    included): it lowers every letter A-Z, removes every period, comma
    and line break, and leaves every other character as it is. *)
Theorem preprocess_eng_spec :
  (forall text : str, _preprocess_eng text = normalize_spec text)
  /\ _preprocess_eng (u "") = u ""
  /\ _preprocess_eng (u "Hello,") = u "hello".
Proof.
  split; [|split; reflexivity].
  intros text. unfold _preprocess_eng, normalize_spec, translate.
  change (u "." ++ [newline] ++ u ",") with [46; 10; 44].
  cbn [fold_left]. change (u "") with (@nil N).
  rewrite !replace_single.
  induction text as [|c text IH]; [reflexivity|].
  rewrite fmap_cons. cbn [flat_map]. rewrite !flat_map_app, IH.
  f_equal. rewrite lower_table. apply normalize_char_step.
Qed.

(** ** The Jyutping formatter *)

(** The code's list is nineteen two-character rules followed by four
    one-character rules. *)
Lemma replacements_blocks :
  Forall (fun r : list N * list N => length r.1 = 2%nat) (take 19 replacements)
  /\ Forall (fun r : list N * list N => length r.1 = 1%nat) (drop 19 replacements).
Proof. split; vm_compute; repeat constructor. Qed.

Lemma replacements_order (i j : nat) (p q : list N * list N) :
  replacements !! i = Some p -> replacements !! j = Some q ->
  length p.1 = 2%nat -> length q.1 = 1%nat -> (i < j)%nat.
Proof.
  intros Hi Hj Hp Hq.
  destruct replacements_blocks as [Htwo Hone].
  assert (19 <= j)%nat.
  { destruct (decide (19 <= j)%nat) as [|Hlt]; [done|].
    rewrite <- (lookup_take_lt _ 19) in Hj by lia.
    pose proof (Forall_lookup_1 _ _ _ _ Htwo Hj) as H2. cbn beta in H2. lia. }
  assert (i < 19)%nat; [|lia].
  destruct (decide (i < 19)%nat) as [|Hge]; [done|].
  replace i with (19 + (i - 19))%nat in Hi by lia.
  rewrite <- lookup_drop in Hi.
  pose proof (Forall_lookup_1 _ _ _ _ Hone Hi) as H1. cbn beta in H1. lia.
Qed.

(** C4. The Jyutping formatter applies the ordered replacements of the
    specification: the contour digraphs, the stop pairs (k, t, p with a
    level tone giving 7, 8, 9), the single glyphs, and last the removal
    of the colon.  Every two-character rule comes before every
    one-character rule, and each two-character pattern on its own is
    rewritten by its own rule. *)
Theorem format_jyutping_spec :
  (forall txt : str, _format_jyutping txt = jyutping_spec txt)
  /\ (forall (i j : nat) (p q : list N * list N),
        replacements !! i = Some p -> replacements !! j = Some q ->
        length p.1 = 2%nat -> length q.1 = 1%nat -> (i < j)%nat)
  /\ Forall (fun r : list N * list N =>
               length r.1 = 2%nat -> _format_jyutping r.1 = r.2)
            replacements.
Proof.
  split; [|split].
  - intros txt. unfold _format_jyutping, jyutping_spec, apply_replacements.
    let v := eval vm_compute in replacements in change replacements with v.
    let v := eval vm_compute in jyutping_spec_rules in
      change jyutping_spec_rules with v.
    cbn [fold_left fst snd].
    rewrite (replace_pair_idem 743 741 50) by discriminate.
    reflexivity.
  - exact replacements_order.
  - unfold replacements. repeat constructor.
Qed.

Lemma format_jyutping_spec_witness : (2 < 20)%nat.
Proof.
  destruct format_jyutping_spec as (_ & Horder & _).
  apply (Horder 2%nat 20%nat (u "˧˥", u "2") (u "˧", u "3"));
    reflexivity.
Defined.

(** ** The character-based path *)

Lemma join_empty (parts : list (list N)) : join [] parts = concat parts.
Proof.
  induction parts as [|p [|q ps] IH]; [reflexivity| |].
  - cbn. rewrite app_nil_r. reflexivity.
  - change (join [] (p :: q :: ps)) with (p ++ [] ++ join [] (q :: ps)).
    rewrite IH. reflexivity.
Qed.

(** The lengths that pass the filter of the list comprehension. *)
Lemma filter_fits (i n k : nat) :
  filter (fun L => (i + L <= n)%nat) (seq 1 k) = seq 1 (min k (n - i)).
Proof.
  induction k as [|k IH]; [reflexivity|].
  rewrite seq_S, filter_app, IH. cbn [plus].
  destruct (decide (i + S k <= n)%nat) as [Hle|Hgt].
  - rewrite filter_cons_True, filter_nil by exact Hle.
    replace (min (S k) (n - i)) with (S (min k (n - i))) by lia.
    rewrite seq_S. replace (min k (n - i)) with k by lia. reflexivity.
  - rewrite filter_cons_False, filter_nil, app_nil_r by exact Hgt.
    f_equal. lia.
Qed.

(** A search from the longest candidate down returns the longest
    candidate that passes the test. *)
Lemma find_longest {A} (p : A -> bool) (f : nat -> A) (m : nat) :
  match find p (reverse (f <$> seq 1 m)) with
  | Some w =>
      exists L, (1 <= L <= m)%nat /\ w = f L /\ p w = true
                /\ forall L', (L < L' <= m)%nat -> p (f L') = false
  | None => forall L, (1 <= L <= m)%nat -> p (f L) = false
  end.
Proof.
  induction m as [|m IH]; [cbn; intros; lia|].
  rewrite seq_S, fmap_app, reverse_app. cbn [plus fmap list_fmap reverse app].
  change (reverse [f (S m)]) with [f (S m)]. cbn [app find].
  destruct (p (f (S m))) eqn:Hp.
  - exists (S m). repeat split; [lia|lia|exact Hp|intros; lia].
  - destruct (find p (reverse (f <$> seq 1 m))) as [w|].
    + destruct IH as (L & HL & -> & Hw & Hmax).
      exists L. repeat split; [lia|lia|exact Hw|].
      intros L' HL'. destruct (decide (L' = S m)) as [->|]; [exact Hp|].
      apply Hmax. lia.
    + intros L HL. destruct (decide (L = S m)) as [->|]; [exact Hp|].
      apply IH. lia.
Qed.

Section zh_path.
Variable ipa_dict : gmap (list N) (list N).
Variable show_word_form : bool.

(** What [find_match] returns at cursor [i]. *)
Lemma find_match_spec (chars : list N) (i : nat) :
  match find_match ipa_dict chars i with
  | Some w =>
      exists L ipa,
        (1 <= L <= 6)%nat /\ (i + L <= length chars)%nat
        /\ w = take L (drop i chars) /\ ipa_dict !! w = Some ipa
        /\ forall L', (L < L' <= 6)%nat -> (i + L' <= length chars)%nat ->
                      ipa_dict !! take L' (drop i chars) = None
  | None =>
      forall L, (1 <= L <= 6)%nat -> (i + L <= length chars)%nat ->
                ipa_dict !! take L (drop i chars) = None
  end.
Proof.
  unfold find_match, candidates. rewrite filter_fits.
  pose proof (find_longest
                (fun cand => bool_decide (is_Some (ipa_dict !! cand)))
                (fun L => take L (drop i chars))
                (min 6 (length chars - i))) as H.
  destruct (find _ _) as [w|].
  - destruct H as (L & HL & -> & Hw & Hmax).
    apply bool_decide_eq_true in Hw as [ipa Hipa].
    exists L, ipa. repeat split; [lia|lia|lia|exact Hipa|].
    intros L' HL' Hfit. specialize (Hmax L').
    rewrite bool_decide_eq_false, <- eq_None_not_Some in Hmax.
    apply Hmax. lia.
  - intros L HL Hfit. specialize (H L).
    rewrite bool_decide_eq_false, <- eq_None_not_Some in H.
    apply H. lia.
Qed.

(** The loop from cursor [i] appends the pieces of a segmentation of
    the input from [i] on; [fuel] as large as the number of remaining
    characters is enough. *)
Lemma zh_while_segments (chars : list N) (fuel i : nat)
    (result_parts : list (list N)) :
  (length chars - i <= fuel)%nat ->
  exists pieces,
    zh_while fuel ipa_dict show_word_form chars i result_parts
      = Some (result_parts ++ pieces)
    /\ Segmented ipa_dict show_word_form (drop i chars) (concat pieces).
Proof.
  revert i result_parts.
  induction fuel as [|fuel IH]; intros i parts Hfuel.
  - exists []. cbn.
    rewrite (lookup_ge_None_2 chars i), drop_ge, app_nil_r by lia.
    split; [reflexivity | constructor].
  - cbn [zh_while].
    destruct (chars !! i) as [ch|] eqn:Hch.
    2:{ exists []. rewrite drop_ge, app_nil_r
          by (apply lookup_ge_None_1; exact Hch).
        split; [reflexivity | constructor]. }
    pose proof (lookup_lt_Some _ _ _ Hch) as Hi.
    rewrite (drop_S _ _ _ Hch).
    unfold zh_body, allow_words_search.
replace (i + 1)%nat with (S i) by lia. cbv zeta.
    destruct (ipa_dict !! [ch]) as [ipa|] eqn:Hdirect.
    { destruct (IH (S i)
                   (parts ++ [hit_part show_word_form [ch] ipa]))
        as (pieces & Hrun & Hseg); [lia|].
      exists (hit_part show_word_form [ch] ipa :: pieces).
      rewrite Hrun, <- app_assoc. split; [reflexivity|].
      cbn [concat]. apply seg_direct; assumption. }
    pose proof (find_match_spec chars i) as Hfind.
    rewrite (drop_S _ _ _ Hch) in Hfind.
    destruct (find_match ipa_dict chars i) as [[|c0 w]|].
    + (* an empty match is impossible *)
      destruct Hfind as (L & ipa & HL & Hfit & Hw & _).
      destruct L; [lia | discriminate Hw].
    + destruct Hfind as (L & ipa & HL & Hfit & Hw & Hipa & Hmax).
      assert (Hlen : length (c0 :: w) = L).
      { rewrite Hw, length_take. cbn [length].
        rewrite length_drop. lia. }
      rewrite Hlen.
      rewrite (lookup_total_correct _ _ _ Hipa).
      destruct (IH (i + L)%nat
                   (parts ++ [hit_part show_word_form (c0 :: w) ipa]))
        as (pieces & Hrun & Hseg); [lia|].
      exists (hit_part show_word_form (c0 :: w) ipa :: pieces).
      rewrite Hrun, <- app_assoc. split; [reflexivity|].
      cbn [concat]. rewrite Hw.
      apply seg_longest; try assumption.
      * cbn [length]. rewrite length_drop. lia.
      * rewrite <- Hw. exact Hipa.
      * intros L' HL' Hfit'. apply Hmax; [exact HL'|].
        cbn [length] in Hfit'. rewrite length_drop in Hfit'. lia.
      * rewrite <- (drop_S _ _ _ Hch), drop_drop. exact Hseg.
    + destruct (IH (S i) (parts ++ [[ch]]))
        as (pieces & Hrun & Hseg); [lia|].
      exists ([ch] :: pieces).
      rewrite Hrun, <- app_assoc. split; [reflexivity|].
      cbn [concat app]. apply seg_copy; try assumption.
      intros L HL Hfit. apply Hfind; [exact HL|].
      cbn [length] in Hfit. rewrite length_drop in Hfit. lia.
Qed.

(** The steps of the specification leave no choice. *)
Lemma Segmented_unique (s out1 out2 : list N) :
  Segmented ipa_dict show_word_form s out1 ->
  Segmented ipa_dict show_word_form s out2 -> out1 = out2.
Proof.
  intros H1. revert out2.
  induction H1 as [ | c rest ipa out Hd _ IH
                    | c rest L ipa out Hd HL Hfit Hipa Hmax _ IH
                    | c rest out Hd Hnone _ IH ];
    intros out2 H2; inversion H2; subst; try congruence.
  - f_equal; [congruence | apply IH; assumption].
  - match goal with
    | Hm : forall L', (?L2 < L' <= 6)%nat -> _ |- _ =>
        assert (L = L2) as <-
    end.
    { match goal with
      | Hm : forall L', (?L2 < L' <= 6)%nat -> _, Hi : _ !! take ?L2 _ = Some _
        |- _ =>
          destruct (lt_eq_lt_dec L L2) as [[Hlt|Heq]|Hgt]; [|exact Heq|];
          [ rewrite (Hmax L2) in Hi by (cbn [length] in *; lia);
            discriminate
          | rewrite (Hm L) in Hipa by (cbn [length] in *; lia);
            discriminate ]
      end. }
    f_equal; [congruence | apply IH; assumption].
  - match goal with
    | Hn : forall L, (1 <= L <= 6)%nat -> _ |- _ =>
        rewrite (Hn L) in Hipa by assumption; discriminate
    end.
  - match goal with
    | Hi : _ !! take ?L2 _ = Some _ |- _ =>
        rewrite (Hnone L2) in Hi by assumption; discriminate
    end.
  - f_equal. apply IH; assumption.
Qed.
End zh_path.

(** The path returns what the steps of the specification produce. *)
Lemma zh_raw_result_of_Segmented (ipa_dict : gmap (list N) (list N))
    (show_word_form : bool) (s out : list N) :
  Segmented ipa_dict show_word_form s out ->
  zh_raw_result ipa_dict show_word_form s = Some out.
Proof.
  intros Hout.
  destruct (zh_while_segments ipa_dict show_word_form s (length s) 0 [])
    as (pieces & Hrun & Hseg); [lia|].
  unfold zh_raw_result. rewrite Hrun.
  cbn [fmap option_fmap option_map app]. change (u "") with (@nil N).
  rewrite join_empty. f_equal.
  exact (Segmented_unique _ _ _ _ _ Hseg Hout).
Qed.

Lemma Segmented_of_zh_raw_result (ipa_dict : gmap (list N) (list N))
    (show_word_form : bool) (s out : list N) :
  zh_raw_result ipa_dict show_word_form s = Some out ->
  Segmented ipa_dict show_word_form s out.
Proof.
  intros Hrun'.
  destruct (zh_while_segments ipa_dict show_word_form s (length s) 0 [])
    as (pieces & Hrun & Hseg); [lia|].
  unfold zh_raw_result in Hrun'. rewrite Hrun in Hrun'.
  cbn [fmap option_fmap option_map app] in Hrun'.
  change (u "") with (@nil N) in Hrun'.
  rewrite join_empty in Hrun'. injection Hrun' as <-. exact Hseg.
Qed.

(** One turn of the loop at a cursor whose character is not a key, when
    the six characters from the cursor are a key: that key is taken. *)
Lemma zh_body_six (ipa_dict : gmap (list N) (list N)) (show_word_form : bool)
    (chars : list N) (i : nat) (ch : N) (result_parts : list (list N))
    (ipa : list N) :
  chars !! i = Some ch ->
  ipa_dict !! [ch] = None ->
  (i + 6 <= length chars)%nat ->
  ipa_dict !! take 6 (drop i chars) = Some ipa ->
  zh_body ipa_dict show_word_form chars i ch result_parts
  = ((i + 6)%nat,
     result_parts ++ [hit_part show_word_form (take 6 (drop i chars)) ipa]).
Proof.
  intros Hch Hd Hfit Hsix. unfold zh_body, allow_words_search. rewrite Hd.
  pose proof (find_match_spec ipa_dict chars i) as Hfind.
  destruct (find_match ipa_dict chars i) as [w|].
  - destruct Hfind as (L & ipa' & HL & HfitL & -> & Hipa & Hmax).
    destruct (decide (L = 6%nat)) as [->|Hne].
    + rewrite (drop_S _ _ _ Hch) in *. cbn [take] in *.
      rewrite (lookup_total_correct _ _ _ Hsix). cbn [length].
      rewrite length_take, length_drop.
      replace (S (min 5 (length chars - S i))) with 6%nat by lia.
      reflexivity.
    + rewrite (Hmax 6%nat) in Hsix by lia. discriminate.
  - rewrite (Hfind 6%nat) in Hsix by lia. discriminate.
Qed.

(** C1. On every input, dictionary and flag the character-based path
    returns, and what it returns is the segmentation of the
    specification: direct single-character lookup first, then the
    longest candidate of at most six characters, then the character
    copied; the pieces are concatenated without separator.  That
    segmentation is unique. *)
Theorem zh_raw_result_segmented (ipa_dict : gmap (list N) (list N))
    (show_word_form : bool) (input_string : list N) :
  exists out,
    zh_raw_result ipa_dict show_word_form input_string = Some out
    /\ Segmented ipa_dict show_word_form input_string out
    /\ forall out', Segmented ipa_dict show_word_form input_string out' ->
                    out' = out.
Proof.
  destruct (zh_while_segments ipa_dict show_word_form input_string
              (length input_string) 0 []) as (pieces & Hrun & Hseg); [lia|].
  exists (concat pieces). unfold zh_raw_result. rewrite Hrun.
  cbn [fmap option_fmap option_map app]. change (u "") with (@nil N).
  rewrite join_empty. repeat split; [exact Hseg|].
  intros out' Hout'.
  exact (Segmented_unique _ _ _ _ _ Hout' Hseg).
Qed.

Lemma zh_raw_result_segmented_witness :
  Segmented abc_dict false (u "abc") (u "/x/bc")
  /\ forall out', Segmented abc_dict false (u "abc") out' -> out' = u "/x/bc".
Proof.
  destruct (zh_raw_result_segmented abc_dict false (u "abc"))
    as (out & Hrun & Hseg & Huniq).
  vm_compute in Hrun. injection Hrun as <-.
  split; [exact Hseg | exact Huniq].
Defined.

(** C2, as stated, fails: with the keys ["a"], ["ab"] and ["abc"] the
    direct lookup of ["a"] comes first, and ["abc"] is segmented as
    ["a"] followed by the two characters copied. *)
Lemma abc_direct_lookup_first :
  zh_raw_result abc_dict false (u "abc") = Some (u "/x/bc")
  /\ zh_raw_result abc_dict false (u "abc")
     <> Some (hit_part false (u "abc") (u "z")).
Proof. split; [vm_compute; reflexivity | vm_compute; discriminate]. Qed.

(** C2, amended.  When the character at the cursor is not itself a key,
    the longest candidate wins: a dictionary with ["abc"] in which ["a"]
    is not a key makes ["abc"] one token; and where a two-character key
    and a six-character key start at the same position, the
    six-character one is taken, in the whole path and in each turn of
    the loop. *)
Theorem longest_match_when_head_not_key :
  (forall (d : gmap (list N) (list N)) (show : bool) (z : list N),
      d !! u "a" = None -> d !! u "abc" = Some z ->
      zh_raw_result d show (u "abc") = Some (hit_part show (u "abc") z))
  /\ (forall (d : gmap (list N) (list N)) (show : bool)
             (w rest ipa out : list N),
        length w = 6%nat -> d !! take 1 w = None ->
        is_Some (d !! take 2 w) -> d !! w = Some ipa ->
        zh_raw_result d show rest = Some out ->
        zh_raw_result d show (w ++ rest) = Some (hit_part show w ipa ++ out))
  /\ (forall (d : gmap (list N) (list N)) (show : bool) (chars : list N)
             (i : nat) (ch : N) (parts : list (list N)) (ipa : list N),
        chars !! i = Some ch -> d !! [ch] = None ->
        (i + 6 <= length chars)%nat ->
        is_Some (d !! take 2 (drop i chars)) ->
        d !! take 6 (drop i chars) = Some ipa ->
        zh_body d show chars i ch parts
        = ((i + 6)%nat,
           parts ++ [hit_part show (take 6 (drop i chars)) ipa])).
Proof.
  split; [|split].
  - intros d show z Ha Habc.
    apply zh_raw_result_of_Segmented.
    change (u "abc") with [97; 98; 99] in *. change (u "a") with [97] in *.
    rewrite <- (app_nil_r (hit_part show [97; 98; 99] z)).
    apply (seg_longest d show 97 [98; 99] 3); try assumption.
    + lia.
    + cbn. lia.
    + intros L' HL' Hfit. cbn in Hfit. lia.
    + constructor.
  - intros d show w rest ipa out Hlen Hone _ Hw Hrest.
    apply zh_raw_result_of_Segmented.
    apply Segmented_of_zh_raw_result in Hrest.
    destruct w as [|c w]; [discriminate Hlen|].
    cbn [app].
    assert (Htake : take 6 (c :: w ++ rest) = c :: w).
    { change (c :: w ++ rest) with ((c :: w) ++ rest).
      apply take_app_length'. symmetry. exact Hlen. }
    assert (Hdrop : drop 6 (c :: w ++ rest) = rest).
    { change (c :: w ++ rest) with ((c :: w) ++ rest).
      apply drop_app_length'. symmetry. exact Hlen. }
    rewrite <- Htake. apply seg_longest.
    + exact Hone.
    + lia.
    + cbn [length] in *. rewrite length_app. lia.
    + rewrite Htake. exact Hw.
    + intros L' HL' _. lia.
    + rewrite Hdrop. exact Hrest.
  - intros d show chars i ch parts ipa Hch Hd Hfit _ Hsix.
    apply zh_body_six; assumption.
Qed.

Lemma longest_match_when_head_not_key_witness :
  zh_raw_result ab_abc_dict true (u "abc") = Some (u "abc/z/")
  /\ zh_raw_result two_six_dict false (u "bcdefg" ++ u "h")
     = Some (u "/z/" ++ u "h")
  /\ zh_body two_six_dict false (u "abcdefgh") 1 98 [u "a"]
     = (7%nat, [u "a"; u "/z/"]).
Proof.
  destruct longest_match_when_head_not_key as (Habc & Hwhole & Hturn).
  split; [|split].
  - apply (Habc ab_abc_dict true (u "z")); vm_compute; reflexivity.
  - apply (Hwhole two_six_dict false (u "bcdefg") (u "h") (u "z") (u "h")).
    + reflexivity.
    + vm_compute; reflexivity.
    + exists (u "y"). vm_compute; reflexivity.
    + vm_compute; reflexivity.
    + vm_compute; reflexivity.
  - apply (Hturn two_six_dict false (u "abcdefgh") 1%nat 98 [u "a"] (u "z")).
    + reflexivity.
    + vm_compute; reflexivity.
    + vm_compute. lia.
    + exists (u "y"). vm_compute; reflexivity.
    + vm_compute; reflexivity.
Defined.

(** ** The word-based path *)

Lemma fields_not_nil (s : list N) : fields s <> [].
Proof.
  destruct s as [|c s]; [discriminate|].
  cbn. destruct (is_space c); [discriminate|].
  destruct (fields s); discriminate.
Qed.

(** [split_from], with the word being read put back in front of the
    first field. *)
Lemma split_from_fields (s cur : list N) :
  split_from cur s
  = match fields s with
    | w :: ws => filter (fun w => w <> []) ((reverse cur ++ w) :: ws)
    | [] => []
    end.
Proof.
  revert cur. induction s as [|c s IH]; intros cur.
  - cbn [split_from fields]. rewrite app_nil_r.
    destruct cur as [|x cur]; [reflexivity|].
    rewrite filter_cons_True, filter_nil; [reflexivity|].
    intros H. apply (f_equal length) in H.
    rewrite length_reverse in H. discriminate H.
  - cbn [split_from fields]. destruct (is_space c).
    + rewrite app_nil_r, IH.
      destruct (fields s) as [|w ws] eqn:Hf;
        [exfalso; exact (fields_not_nil s Hf)|].
      destruct cur as [|x cur]; change (reverse (@nil N)) with (@nil N);
        cbn [app].
      * rewrite (filter_cons_False _ []) by auto. reflexivity.
      * rewrite (filter_cons_True _ (reverse (x :: cur))); [reflexivity|].
        intros H. apply (f_equal length) in H.
        rewrite length_reverse in H. discriminate H.
    + rewrite IH.
      destruct (fields s) as [|w ws] eqn:Hf;
        [exfalso; exact (fields_not_nil s Hf)|].
      rewrite reverse_cons, <- app_assoc. reflexivity.
Qed.

Lemma split_tokens (s : list N) : split s = tokens_spec s.
Proof.
  unfold split, tokens_spec. rewrite split_from_fields.
  destruct (fields s) as [|w ws] eqn:Hf;
    [exfalso; exact (fields_not_nil s Hf) | reflexivity].
Qed.

Lemma en_body_fold (d : gmap (list N) (list N)) (show : bool)
    (words parts : list (list N)) :
  fold_left (en_body d show) words parts
  = parts ++ (word_piece d show <$> filter (fun w => w <> []) words).
Proof.
  revert parts. induction words as [|w words IH]; intros parts.
  - cbn. rewrite app_nil_r. reflexivity.
  - cbn [fold_left]. rewrite IH.
    destruct (decide (w = [])) as [->|Hw].
    + rewrite filter_cons_False by auto. unfold en_body.
      rewrite decide_True by reflexivity. reflexivity.
    + rewrite filter_cons_True by exact Hw. rewrite fmap_cons.
      assert (en_body d show parts w = parts ++ [word_piece d show w]) as ->.
      { unfold en_body, word_piece, hit_part.
        rewrite decide_False by exact Hw.
        destruct (d !! _preprocess_eng w); reflexivity. }
      rewrite <- app_assoc. reflexivity.
Qed.

Lemma en_result_word_path (d : gmap (list N) (list N)) (show : bool)
    (s : list N) :
  en_result d show s = word_path_spec d show s.
Proof.
  unfold en_result, word_path_spec.
  rewrite en_body_fold, split_tokens. cbn [app].
  unfold tokens_spec. rewrite list_filter_filter.
  f_equal. f_equal. apply list_filter_iff. tauto.
Qed.

(** C3, as stated, fails on its example: a dictionary value that already
    carries slashes is wrapped in slashes once more. *)
Lemma slashed_value_wrapped_again :
  en_result slashed_hello_dict false (u "hello xyz123")
  = u "//hə.ˈloʊ// xyz123"
  /\ en_result slashed_hello_dict false (u "hello xyz123")
     <> u "/hə.ˈloʊ/ xyz123".
Proof. split; [vm_compute; reflexivity | vm_compute; discriminate]. Qed.

(** C3, amended.  The word-based path cuts the input at whitespace,
    drops empty tokens, normalises each token, emits the IPA of a
    normalised token between slashes (after the normalised token when
    the word form is shown) and the original token on a miss, and joins
    the pieces by one space; with ["hello"] mapped to ["hə.ˈloʊ"],
    ["hello xyz123"] gives ["/hə.ˈloʊ/ xyz123"]. *)
Theorem translate_to_ipa_en_spec :
  (forall (d : gmap (list N) (list N)) (show : bool) (input : list N),
      en_result d show input = word_path_spec d show input)
  /\ (forall (input lang : list N) (show : bool) (fs : gmap (list N) file)
             (d : gmap (list N) (list N)) (log : list (list N)),
        _load_ipa_dict lang fs = (Ok d, log) ->
        _translate_to_ipa_en input lang show fs
        = (Ok (word_path_spec d show input), log))
  /\ en_result hello_dict false (u "hello xyz123") = u "/hə.ˈloʊ/ xyz123".
Proof.
  split; [exact en_result_word_path | split].
  - intros input lang show fs d log Hload.
    unfold _translate_to_ipa_en, io_bind, io_ret. rewrite Hload.
    rewrite app_nil_r, en_result_word_path. reflexivity.
  - vm_compute. reflexivity.
Qed.

Lemma translate_to_ipa_en_spec_witness :
  _translate_to_ipa_en (u "Hello, World") (u "en_US") true demo_fs
  = (Ok (u "hello/hə.ˈloʊ/ World"), [u "data/en_US.json"]).
Proof.
  destruct translate_to_ipa_en_spec as (_ & Hpath & _).
  rewrite (Hpath (u "Hello, World") (u "en_US") true demo_fs
                 hello_dict [u "data/en_US.json"]).
  - vm_compute. reflexivity.
  - vm_compute. reflexivity.
Defined.

(** ** Formats, dispatch and the registry *)

(** C9. The original format is the identity on strings, alone and as
    selected by ["org"]. *)
Theorem format_ipa_org_identity (s : list N) :
  _format_ipa_org s = s /\ zh_format (u "org") s = s.
Proof. split; reflexivity. Qed.

(** C10. In the character-based path the format argument selects the
    numeric formatter exactly for ["num"] and the Jyutping formatter
    exactly for ["jyutping"]; any other string selects the original
    format, among them ["Jyutping"], which is the spelling listed in
    [available_formats], and the empty string.  On ["a˥"] the three
    formatters differ, so the selection shows. *)
Theorem zh_format_selection :
  (forall raw : list N, zh_format (u "num") raw = _format_ipa_num raw)
  /\ (forall raw : list N,
        zh_format (u "jyutping") raw = _format_jyutping raw)
  /\ (forall fmt raw : list N,
        fmt <> u "num" -> fmt <> u "jyutping" ->
        zh_format fmt raw = _format_ipa_org raw)
  /\ u "Jyutping" ∈ available_formats
  /\ (forall raw : list N, zh_format (u "Jyutping") raw = raw)
  /\ (forall raw : list N, zh_format (u "") raw = raw)
  /\ zh_format (u "Jyutping") (u "a˥") <> _format_jyutping (u "a˥")
  /\ zh_format (u "") (u "a˥") <> _format_ipa_num (u "a˥").
Proof.
  repeat split; try reflexivity.
  - intros fmt raw Hnum Hjyut. unfold zh_format.
    rewrite !decide_False by assumption. reflexivity.
  - unfold available_formats. rewrite !elem_of_cons. tauto.
  - vm_compute. discriminate.
  - vm_compute. discriminate.
Qed.

Lemma zh_format_selection_witness :
  zh_format (u "JYUTPING") (u "a˥") = _format_ipa_org (u "a˥").
Proof.
  destruct zh_format_selection as (_ & _ & Hother & _).
  apply Hother; vm_compute; discriminate.
Defined.

(** What [_load_ipa_dict] does with a code outside the registry and with
    one of the character-based codes. *)
Lemma load_unsupported (lang_code : list N) (fs : gmap (list N) file) :
  source_dict !! lang_code = None ->
  _load_ipa_dict lang_code fs
  = (Raise (ValueError (u "Unsupported language code: " ++ lang_code)), []).
Proof. intros H. unfold _load_ipa_dict. rewrite H. reflexivity. Qed.

Lemma zh_codes_registered (lang_code : list N) :
  lang_code ∈ [u "zh_hans"; u "yue"; u "zh_hant"] ->
  is_Some (source_dict !! lang_code).
Proof.
  rewrite !elem_of_cons, elem_of_nil.
  intros [->|[->|[->|[]]]]; vm_compute; eauto.
Qed.

Lemma bind_load {A} (lang_code : list N) (k : gmap (list N) (list N) -> io A)
    (fs : gmap (list N) file) (d : gmap (list N) (list N))
    (log : list (list N)) :
  _load_ipa_dict lang_code fs = (Ok d, log) ->
  io_bind (_load_ipa_dict lang_code) k fs
  = (let '(r, log') := k d fs in (r, log ++ log')).
Proof. intros H. unfold io_bind. rewrite H. reflexivity. Qed.

(** A registered code opens its data file, and only that one. *)
Lemma load_registered_opens (lang_code name filename : list N)
    (fs : gmap (list N) file) :
  source_dict !! lang_code = Some (name, filename) ->
  (_load_ipa_dict lang_code fs).2 = [u "data/" ++ filename].
Proof.
  intros H. unfold _load_ipa_dict, open_json. rewrite H.
  destruct (fs !! (u "data/" ++ filename)) as [[|d]|]; reflexivity.
Qed.

(** The bound on the loop is never reached: a translation returns a
    string or raises. *)
Lemma translate_to_ipa_returns (input_string lang_code : list N)
    (show_word_form : bool) (output_format : list N)
    (fs : gmap (list N) file) :
  (translate_to_ipa input_string lang_code show_word_form output_format fs).1
  <> OutOfFuel.
Proof.
  unfold translate_to_ipa, _translate_to_ipa_zh, _translate_to_ipa_en, io_bind.
  case_decide;
    destruct (_load_ipa_dict lang_code fs) as [[d|e|] log] eqn:Hload;
    try discriminate.
  - destruct (zh_while_segments d show_word_form input_string
                (length input_string) 0 []) as (pieces & Hrun & _); [lia|].
    unfold zh_raw_result. rewrite Hrun. discriminate.
  - exfalso. revert Hload. unfold _load_ipa_dict, io_raise, open_json.
    destruct (source_dict !! lang_code) as [[? filename]|]; [|discriminate].
    destruct (fs !! (u "data/" ++ filename)) as [[|?]|]; discriminate.
  - exfalso. revert Hload. unfold _load_ipa_dict, io_raise, open_json.
    destruct (source_dict !! lang_code) as [[? filename]|]; [|discriminate].
    destruct (fs !! (u "data/" ++ filename)) as [[|?]|]; discriminate.
Qed.

(** C7. The dispatcher sends the three character-based codes to the
    character-based path, whose result is the raw segmentation passed
    through the format selected by the format argument, and every other
    code to the word-based path, where the format argument changes
    nothing. *)
Theorem translate_dispatch (input_string lang_code : list N)
    (show_word_form : bool) (output_format : list N)
    (fs : gmap (list N) file) :
  (lang_code ∈ [u "yue"; u "zh_hans"; u "zh_hant"] ->
     translate_to_ipa input_string lang_code show_word_form output_format fs
     = _translate_to_ipa_zh input_string lang_code show_word_form
                            output_format fs
     /\ forall d log,
          _load_ipa_dict lang_code fs = (Ok d, log) ->
          exists raw,
            zh_raw_result d show_word_form input_string = Some raw
            /\ translate_to_ipa input_string lang_code show_word_form
                                output_format fs
               = (Ok (zh_format output_format raw), log))
  /\ (lang_code ∉ [u "yue"; u "zh_hans"; u "zh_hant"] ->
       translate_to_ipa input_string lang_code show_word_form output_format fs
       = _translate_to_ipa_en input_string lang_code show_word_form fs
       /\ forall output_format',
            translate_to_ipa input_string lang_code show_word_form
                             output_format' fs
            = translate_to_ipa input_string lang_code show_word_form
                               output_format fs).
Proof.
  split.
  - intros Hzh.
    assert (Hin : lang_code ∈ [u "zh_hans"; u "yue"; u "zh_hant"]).
    { revert Hzh. rewrite !elem_of_cons. tauto. }
    unfold translate_to_ipa. rewrite decide_True by exact Hin.
    split; [reflexivity|].
    intros d log Hload.
    destruct (zh_while_segments d show_word_form input_string
                (length input_string) 0 []) as (pieces & Hrun & _); [lia|].
    exists (join (u "") pieces). unfold zh_raw_result. rewrite Hrun.
    split; [reflexivity|].
    unfold _translate_to_ipa_zh. rewrite (bind_load _ _ _ _ _ Hload).
    unfold zh_raw_result. rewrite Hrun.
    cbn [fmap option_fmap option_map app io_ret]. rewrite app_nil_r.
    reflexivity.
  - intros Hnot.
    assert (Hout : lang_code ∉ [u "zh_hans"; u "yue"; u "zh_hant"]).
    { revert Hnot. rewrite !elem_of_cons. tauto. }
    unfold translate_to_ipa. rewrite !decide_False by exact Hout.
    split; [reflexivity|]. intros fmt'. rewrite decide_False by exact Hout.
    reflexivity.
Qed.

Lemma translate_dispatch_witness :
  translate_to_ipa (u "中文") (u "yue") false (u "jyutping") demo_fs
  = _translate_to_ipa_zh (u "中文") (u "yue") false (u "jyutping") demo_fs
  /\ translate_to_ipa (u "hello") (u "en_US") false (u "jyutping") demo_fs
     = translate_to_ipa (u "hello") (u "en_US") false (u "num") demo_fs.
Proof.
  split.
  - destruct (translate_dispatch (u "中文") (u "yue") false (u "jyutping")
                demo_fs) as [Hzh _].
    destruct Hzh as [Heq _]; [constructor | exact Heq].
  - destruct (translate_dispatch (u "hello") (u "en_US") false (u "num")
                demo_fs) as [_ Hen].
    destruct Hen as [_ Hfmt]; [|apply Hfmt].
    lits. rewrite !elem_of_cons, elem_of_nil.
    intros [H|[H|[H|[]]]]; discriminate H.
Defined.

(** C8. For a code that is not in the registry, whatever the input, the
    flag, the format and the file store, [translate_to_ipa] raises the
    error for an unsupported language and opens no file. *)
Theorem translate_unsupported_language (input_string lang_code : list N)
    (show_word_form : bool) (output_format : list N)
    (fs : gmap (list N) file) :
  source_dict !! lang_code = None ->
  translate_to_ipa input_string lang_code show_word_form output_format fs
  = (Raise (ValueError (u "Unsupported language code: " ++ lang_code)), []).
Proof.
  intros Hnone. unfold translate_to_ipa.
  case_decide as Hzh.
  - apply zh_codes_registered in Hzh. rewrite Hnone in Hzh.
    destruct Hzh as [? Hzh]. discriminate Hzh.
  - unfold _translate_to_ipa_en, io_bind.
    rewrite (load_unsupported _ _ Hnone). reflexivity.
Qed.

Lemma translate_unsupported_language_witness :
  translate_to_ipa (u "hello") (u "xx_ZZ") false (u "org") demo_fs
  = (Raise (ValueError (u "Unsupported language code: xx_ZZ")), []).
Proof.
  apply (translate_unsupported_language
           (u "hello") (u "xx_ZZ") false (u "org") demo_fs).
  vm_compute. reflexivity.
Defined.


(** * Further properties of the code *)

(** A closed decidable statement is settled by evaluation. *)
Ltac by_decide := apply (bool_decide_unpack _); vm_compute; exact I.

(** ** [str.replace] when the pattern cannot occur *)

Lemma starts_with_elem (old s : list N) (c : N) :
  starts_with old s = true -> c ∈ old -> c ∈ s.
Proof.
  revert s. induction old as [|a old IH]; intros s Hs Hc.
  - apply elem_of_nil in Hc. destruct Hc.
  - destruct s as [|x s]; [discriminate Hs|].
    cbn in Hs. apply andb_true_iff in Hs as [Hax Hrest].
    apply N.eqb_eq in Hax as <-.
    apply elem_of_cons in Hc as [->|Hc]; [left|right; eauto].
Qed.

(** A pattern with a character that the text does not have is found
    nowhere: the text comes back as it is. *)
Lemma replace_absent (old new s : list N) (c : N) :
  c ∈ old -> c ∉ s -> replace old new s = s.
Proof.
  intros Hold. unfold replace.
  destruct old as [|a old]; [apply elem_of_nil in Hold; destruct Hold|].
  induction s as [|x s IH]; intros Hs; [reflexivity|].
  cbn [replace_from].
  destruct (starts_with (a :: old) (x :: s)) eqn:Hst.
  - exfalso. apply Hs. exact (starts_with_elem _ _ _ Hst Hold).
  - f_equal. apply IH. intros Hin. apply Hs. right. exact Hin.
Qed.

(** ** The numeric formatter, character by character *)

Lemma format_ipa_num_flat_map (txt : list N) :
  _format_ipa_num txt = flat_map numeric_char txt.
Proof.
  unfold _format_ipa_num. lits. rewrite !replace_single.
  induction txt as [|c txt IH]; [reflexivity|].
  cbn [flat_map]. rewrite !flat_map_app, IH.
  f_equal. apply numeric_char_step.
Qed.

(** What [numeric_char] gives: a digit for a tone glyph, nothing for a
    colon, the character itself otherwise. *)
Lemma numeric_char_cases (c : N) :
  (c ∈ u "˥˧˨˩" /\ (exists k, numeric_char c = [k] /\ k ∈ u "5321"))
  \/ (c = 58 /\ numeric_char c = [])
  \/ ((c ∉ u "˥˧˨˩:") /\ numeric_char c = [c]).
Proof.
  unfold numeric_char. lits.
  repeat case_decide; simplify_eq.
  - left. split; [|eexists; split; [reflexivity|]]; set_solver.
  - left. split; [|eexists; split; [reflexivity|]]; set_solver.
  - left. split; [|eexists; split; [reflexivity|]]; set_solver.
  - left. split; [|eexists; split; [reflexivity|]]; set_solver.
  - right. left. done.
  - right. right. split; [|reflexivity].
    rewrite !elem_of_cons, elem_of_nil. intros [->|[->|[->|[->|[->|[]]]]]];
      congruence.
Qed.

Lemma numeric_output_clean (txt : list N) (c : N) :
  c ∈ _format_ipa_num txt -> c ∉ u "˥˧˨˩:".
Proof.
  rewrite format_ipa_num_flat_map. intros Hc.
  apply list_elem_of_In, in_flat_map in Hc as (x & _ & Hx).
  apply list_elem_of_In in Hx.
  destruct (numeric_char_cases x)
    as [(_ & k & Heq & Hk)|[(_ & Heq)|(Hx' & Heq)]]; rewrite Heq in Hx.
  - apply list_elem_of_singleton in Hx as ->. revert Hk. lits.
    rewrite !elem_of_cons, !elem_of_nil.
    intros [->|[->|[->|[->|[]]]]] [H|[H|[H|[H|[H|[]]]]]]; discriminate H.
  - apply elem_of_nil in Hx. destruct Hx.
  - apply list_elem_of_singleton in Hx as ->. exact Hx'.
Qed.

Lemma numeric_char_keeps (c : N) : c ∉ u "˥˧˨˩:" -> numeric_char c = [c].
Proof.
  intros Hc.
  destruct (numeric_char_cases c) as [(Hin & _)|[(-> & _)|(_ & Heq)]];
    [exfalso| exfalso |exact Heq]; apply Hc.
  - revert Hin. lits. rewrite !elem_of_cons, !elem_of_nil. tauto.
  - lits. rewrite !elem_of_cons. tauto.
Qed.

Lemma flat_map_keeps (f : N -> list N) (s : list N) :
  (forall c, c ∈ s -> f c = [c]) -> flat_map f s = s.
Proof.
  induction s as [|x s IH]; intros H; [reflexivity|].
  cbn [flat_map]. rewrite H by left. rewrite IH; [reflexivity|].
  intros c Hc. apply H. right. exact Hc.
Qed.

(** X1. The numeric formatter leaves no tone glyph and no colon in its
    output. *)
Theorem format_ipa_num_no_tone (txt : list N) :
  Forall (fun c => c ∉ u "˥˧˨˩:") (_format_ipa_num txt).
Proof.
  apply Forall_forall. intros c Hc.
  exact (numeric_output_clean txt c Hc).
Qed.

(** X2. Formatting numerically twice is formatting once. *)
Theorem format_ipa_num_idempotent (txt : list N) :
  _format_ipa_num (_format_ipa_num txt) = _format_ipa_num txt.
Proof.
  rewrite (format_ipa_num_flat_map (_format_ipa_num txt)).
  apply flat_map_keeps. intros c Hc.
  apply numeric_char_keeps. exact (numeric_output_clean txt c Hc).
Qed.

(** X3. The numeric formatter works piece by piece: formatting a
    concatenation is concatenating the formatted parts, and the output
    is never longer than the input. *)
Theorem format_ipa_num_app (a b : list N) :
  _format_ipa_num (a ++ b) = _format_ipa_num a ++ _format_ipa_num b
  /\ (length (_format_ipa_num a) <= length a)%nat.
Proof.
  rewrite !format_ipa_num_flat_map. split; [apply flat_map_app|].
  induction a as [|c a IH]; [reflexivity|].
  cbn [flat_map]. rewrite length_app. cbn [length].
  assert (length (numeric_char c) <= 1)%nat; [|lia].
  destruct (numeric_char_cases c) as [(_ & k & -> & _)|[(_ & ->)|(_ & ->)]];
    cbn; lia.
Qed.

(** ** The Jyutping formatter *)

(** Every pattern of the list has a tone glyph or a colon. *)
Lemma replacements_marked :
  Forall (fun r : list N * list N => exists c, c ∈ r.1 /\ c ∈ u "˥˧˨˩:")
         replacements.
Proof.
  unfold replacements. lits.
  repeat (apply Forall_cons; split;
          [ first [ exists 741; split; [set_solver|set_solver]
                  | exists 743; split; [set_solver|set_solver]
                  | exists 744; split; [set_solver|set_solver]
                  | exists 745; split; [set_solver|set_solver]
                  | exists 58; split; [set_solver|set_solver] ] | ]).
  apply Forall_nil_2.
Qed.

Lemma apply_replacements_absent (rs : list (list N * list N)) (s : list N) :
  Forall (fun r : list N * list N => exists c, c ∈ r.1 /\ c ∈ u "˥˧˨˩:") rs ->
  Forall (fun c => c ∉ u "˥˧˨˩:") s ->
  apply_replacements rs s = s.
Proof.
  intros Hrs Hs. unfold apply_replacements.
  induction Hrs as [|r rs (c & Hc & Hmark) _ IH]; [reflexivity|].
  cbn [fold_left]. rewrite (replace_absent _ _ _ c Hc); [exact IH|].
  intros Hin. rewrite Forall_forall in Hs. exact (Hs c Hin Hmark).
Qed.

(** X4. A text without tone glyphs and colons goes through every output
    format unchanged. *)
Theorem formats_keep_plain_text (output_format txt : list N) :
  Forall (fun c => c ∉ u "˥˧˨˩:") txt ->
  _format_ipa_num txt = txt /\ _format_jyutping txt = txt
  /\ zh_format output_format txt = txt.
Proof.
  intros Hplain.
  assert (Hnum : _format_ipa_num txt = txt).
  { rewrite format_ipa_num_flat_map. apply flat_map_keeps.
    intros c Hc. apply numeric_char_keeps.
    rewrite Forall_forall in Hplain. exact (Hplain c Hc). }
  assert (Hjyut : _format_jyutping txt = txt).
  { apply apply_replacements_absent; [exact replacements_marked|exact Hplain]. }
  repeat split; [exact Hnum | exact Hjyut |].
  unfold zh_format. repeat case_decide; assumption || reflexivity.
Qed.

Lemma formats_keep_plain_text_witness :
  zh_format (u "jyutping") (u "/ma/ !") = u "/ma/ !".
Proof.
  apply (formats_keep_plain_text (u "jyutping") (u "/ma/ !")).
  by_decide.
Defined.

(** The characters of a text in which one character was replaced. *)
Lemma elem_of_replace_single (a : N) (new s : list N) (c : N) :
  c ∈ replace [a] new s -> c ∈ new \/ (c ∈ s /\ c <> a).
Proof.
  rewrite replace_single. intros Hc.
  apply list_elem_of_In, in_flat_map in Hc as (x & Hx & Hc).
  apply list_elem_of_In in Hx.
  destruct (N.eqb_spec a x) as [->|Hne].
  - left. apply list_elem_of_In. exact Hc.
  - right. destruct Hc as [<-|[]]. split; [exact Hx | congruence].
Qed.

Lemma apply_replacements_app (rs1 rs2 : list (list N * list N)) (s : list N) :
  apply_replacements (rs1 ++ rs2) s
  = apply_replacements rs2 (apply_replacements rs1 s).
Proof. unfold apply_replacements. apply fold_left_app. Qed.

(** X5. The Jyutping formatter leaves none of the glyphs ˥ ˧ ˨ and no
    colon in its output; the glyph ˩, which has no rule of its own, can
    stay: alone, it comes back as it is. *)
Theorem format_jyutping_no_tone (txt : list N) :
  Forall (fun c => c ∉ u "˥˧˨:") (_format_jyutping txt)
  /\ _format_jyutping (u "˩") = u "˩".
Proof.
  split; [|reflexivity].
  apply Forall_forall. intros c Hc. unfold _format_jyutping in Hc.
  rewrite <- (take_drop 19 replacements), apply_replacements_app in Hc.
  set (X := apply_replacements (take 19 replacements) txt) in Hc.
  change (drop 19 replacements)
    with [([741], [49]); ([743], [51]); ([744], [54]); ([58], @nil N)] in Hc.
  unfold apply_replacements in Hc. cbn [fold_left fst snd] in Hc.
  lits. rewrite !elem_of_cons, elem_of_nil.
  apply elem_of_replace_single in Hc as [Hc|[Hc H58]];
    [apply elem_of_nil in Hc; destruct Hc|].
  apply elem_of_replace_single in Hc as [Hc|[Hc H744]];
    [apply list_elem_of_singleton in Hc as ->;
     intros [H|[H|[H|[H|[]]]]]; discriminate H|].
  apply elem_of_replace_single in Hc as [Hc|[Hc H743]];
    [apply list_elem_of_singleton in Hc as ->;
     intros [H|[H|[H|[H|[]]]]]; discriminate H|].
  apply elem_of_replace_single in Hc as [Hc|[Hc H741]];
    [apply list_elem_of_singleton in Hc as ->;
     intros [H|[H|[H|[H|[]]]]]; discriminate H|].
  tauto.
Qed.

(** ** The preprocessor, character by character *)

Lemma preprocess_flat_map (text : list N) :
  _preprocess_eng text = flat_map normalize_char text.
Proof.
  unfold _preprocess_eng, translate.
  change (u "." ++ [newline] ++ u ",") with [46; 10; 44].
  cbn [fold_left]. change (u "") with (@nil N).
  rewrite !replace_single.
  induction text as [|c text IH]; [reflexivity|].
  rewrite fmap_cons. cbn [flat_map]. rewrite !flat_map_app, IH.
  f_equal. rewrite lower_table. apply normalize_char_step.
Qed.

Lemma normalize_char_cases (c : N) :
  (c ∈ u ".," ++ [newline] /\ normalize_char c = [])
  \/ ((c ∉ u ".," ++ [newline]) /\ normalize_char c = [lower c]
      /\ is_normal (lower c)).
Proof.
  unfold normalize_char. case_decide as Hin; [left; done|].
  right. split; [exact Hin|]. split; [reflexivity|].
  revert Hin. unfold is_normal, lower, is_upper, newline. lits. cbn [app].
  rewrite !elem_of_cons, !elem_of_nil. intros Hin.
  destruct (N.leb_spec 65 c), (N.leb_spec c 90); cbn [andb].
  - split.
    + destruct (N.leb_spec 65 (c + 32)), (N.leb_spec (c + 32) 90);
        cbn [andb]; try reflexivity; lia.
    + lia.
  - split; [|tauto].
    destruct (N.leb_spec 65 c), (N.leb_spec c 90); cbn [andb];
      try reflexivity; lia.
  - split; [|tauto].
    destruct (N.leb_spec 65 c), (N.leb_spec c 90); cbn [andb];
      try reflexivity; lia.
  - lia.
Qed.

Lemma normalize_char_keeps (c : N) : is_normal c -> normalize_char c = [c].
Proof.
  intros [Hup Hin]. unfold normalize_char, lower.
  rewrite decide_False by exact Hin. rewrite Hup. reflexivity.
Qed.

Lemma preprocess_output_normal (text : list N) (c : N) :
  c ∈ _preprocess_eng text -> is_normal c.
Proof.
  rewrite preprocess_flat_map. intros Hc.
  apply list_elem_of_In, in_flat_map in Hc as (x & _ & Hx).
  destruct (normalize_char_cases x) as [(_ & Heq)|(_ & Heq & Hn)];
    rewrite Heq in Hx; [destruct Hx|].
  destruct Hx as [<-|[]]. exact Hn.
Qed.

(** X6. The output of the preprocessor has no letter A-Z, no period, no
    comma and no line break. *)
Theorem preprocess_eng_output (text : list N) :
  Forall (fun c => is_upper c = false /\ c ∉ u ".," ++ [newline])
         (_preprocess_eng text).
Proof.
  apply Forall_forall. intros c Hc.
  exact (preprocess_output_normal text c Hc).
Qed.

(** X7. Preprocessing twice is preprocessing once. *)
Theorem preprocess_eng_idempotent (text : list N) :
  _preprocess_eng (_preprocess_eng text) = _preprocess_eng text.
Proof.
  rewrite (preprocess_flat_map (_preprocess_eng text)).
  apply flat_map_keeps. intros c Hc.
  apply normalize_char_keeps. exact (preprocess_output_normal text c Hc).
Qed.

(** X8. The preprocessor works piece by piece: preprocessing a
    concatenation is concatenating the preprocessed parts, and the
    output is never longer than the input. *)
Theorem preprocess_eng_app (a b : list N) :
  _preprocess_eng (a ++ b) = _preprocess_eng a ++ _preprocess_eng b
  /\ (length (_preprocess_eng a) <= length a)%nat.
Proof.
  rewrite !preprocess_flat_map. split; [apply flat_map_app|].
  induction a as [|c a IH]; [reflexivity|].
  cbn [flat_map]. rewrite length_app. cbn [length].
  assert (length (normalize_char c) <= 1)%nat; [|lia].
  destruct (normalize_char_cases c) as [(_ & ->)|(_ & -> & _)]; cbn; lia.
Qed.

(** ** [split] and the word-based path *)

(** Reading a word: its characters pile up in [cur]. *)
Lemma split_from_word (w cur rest : list N) :
  Forall (fun c => is_space c = false) w ->
  split_from cur (w ++ rest) = split_from (reverse w ++ cur) rest.
Proof.
  intros Hw. revert cur. induction Hw as [|c w Hc _ IH]; intros cur.
  - reflexivity.
  - cbn [app split_from]. rewrite Hc, IH, reverse_cons, <- app_assoc.
    reflexivity.
Qed.

Lemma reverse_not_nil (w : list N) : w <> [] -> reverse w <> [].
Proof.
  intros Hw H. apply Hw. apply (f_equal length) in H.
  rewrite length_reverse in H. destruct w; [reflexivity|discriminate H].
Qed.

(** The tokens of [split] are not empty and have no whitespace. *)
Lemma split_from_tokens (s cur : list N) :
  Forall (fun c => is_space c = false) cur ->
  Forall (fun w => w <> [] /\ Forall (fun c => is_space c = false) w)
         (split_from cur s).
Proof.
  revert cur. induction s as [|c s IH]; intros cur Hcur.
  - cbn. destruct cur as [|x cur]; [constructor|].
    repeat constructor.
    + apply reverse_not_nil. discriminate.
    + apply Forall_reverse. exact Hcur.
  - cbn [split_from]. destruct (is_space c) eqn:Hc.
    + destruct cur as [|x cur]; [apply IH; constructor|].
      constructor; [split|apply IH; constructor].
      * apply reverse_not_nil. discriminate.
      * apply Forall_reverse. exact Hcur.
    + apply IH. constructor; assumption.
Qed.

Lemma split_join (ws : list (list N)) :
  Forall (fun w => w <> [] /\ Forall (fun c => is_space c = false) w) ws ->
  split (join (u " ") ws) = ws.
Proof.
  unfold split. change (u " ") with [32].
  induction 1 as [|w ws [Hne Hw] _ IH]; [reflexivity|].
  destruct ws as [|w' ws].
  - cbn [join]. rewrite <- (app_nil_r w) at 1.
    rewrite (split_from_word w [] [] Hw), app_nil_r. cbn [split_from].
    pose proof (reverse_not_nil w Hne) as Hr.
    destruct (reverse w) as [|x r] eqn:Hrev; [congruence|].
    rewrite <- Hrev, reverse_involutive. reflexivity.
  - change (join [32] (w :: w' :: ws))
      with (w ++ [32] ++ join [32] (w' :: ws)).
    rewrite (split_from_word w [] _ Hw), app_nil_r.
    cbn [app split_from]. change (is_space 32) with true. cbn iota.
    pose proof (reverse_not_nil w Hne) as Hr.
    destruct (reverse w) as [|x r] eqn:Hrev; [congruence|].
    rewrite <- Hrev, reverse_involutive, IH. reflexivity.
Qed.

(** X9. Every token returned by [split] is non-empty and free of
    whitespace. *)
Theorem split_tokens_clean (s : list N) :
  Forall (fun w => w <> [] /\ Forall (fun c => is_space c = false) w)
         (split s).
Proof.
  unfold split. apply split_from_tokens. constructor.
Qed.

(** X10. Joining non-empty, whitespace-free tokens with one space and
    splitting the result gives the tokens back; so splitting, joining
    and splitting again is splitting once. *)
Theorem split_join_round_trip :
  (forall ws : list (list N),
      Forall (fun w => w <> [] /\ Forall (fun c => is_space c = false) w) ws ->
      split (join (u " ") ws) = ws)
  /\ (forall s : list N, split (join (u " ") (split s)) = split s).
Proof.
  split; [exact split_join|].
  intros s. apply split_join. unfold split.
  apply split_from_tokens. constructor.
Qed.

Lemma split_join_round_trip_witness :
  split (u "hello xyz123") = [u "hello"; u "xyz123"].
Proof.
  destruct split_join_round_trip as [Hjoin _].
  apply (Hjoin [u "hello"; u "xyz123"]). by_decide.
Defined.

(** The word-based path through its pieces. *)
Lemma en_result_pieces (d : gmap (list N) (list N)) (show : bool)
    (s : list N) :
  en_result d show s = join (u " ") (word_piece d show <$> split s).
Proof. rewrite en_result_word_path, split_tokens. reflexivity. Qed.

Lemma split_from_blank (s : list N) :
  Forall (fun c => is_space c = true) s -> split_from [] s = [].
Proof.
  induction 1 as [|c s Hc _ IH]; [reflexivity|].
  cbn [split_from]. rewrite Hc. exact IH.
Qed.

Lemma split_from_nil (s cur : list N) :
  split_from cur s = [] ->
  cur = [] /\ Forall (fun c => is_space c = true) s.
Proof.
  revert cur. induction s as [|c s IH]; intros cur H.
  - cbn in H. destruct cur; [split; [reflexivity|constructor]|discriminate H].
  - cbn [split_from] in H. destruct (is_space c) eqn:Hc.
    + destruct cur as [|x cur]; [|discriminate H].
      destruct (IH [] H) as [_ Hs]. split; [reflexivity|].
      constructor; assumption.
    + destruct (IH (c :: cur) H) as [Hcur _]. discriminate Hcur.
Qed.

Lemma join_not_nil (sep p : list N) (ps : list (list N)) :
  p <> [] -> join sep (p :: ps) <> [].
Proof.
  intros Hp. destruct ps as [|q ps]; cbn [join]; [exact Hp|].
  destruct p; [congruence|discriminate].
Qed.

Lemma word_piece_not_nil (d : gmap (list N) (list N)) (show : bool)
    (tok : list N) :
  tok <> [] -> word_piece d show tok <> [].
Proof.
  intros Htok. unfold word_piece.
  destruct (d !! _preprocess_eng tok); [|exact Htok].
  change (u "/") with [47]. destruct show.
  - destruct (_preprocess_eng tok); discriminate.
  - discriminate.
Qed.

(** X11. The word-based path gives the empty string exactly when the
    input is blank (empty or whitespace only). *)
Theorem en_result_empty_iff_blank (d : gmap (list N) (list N)) (show : bool)
    (s : list N) :
  en_result d show s = [] <-> Forall (fun c => is_space c = true) s.
Proof.
  rewrite en_result_pieces. split.
  - intros Hnil. unfold split in *.
    destruct (split_from [] s) as [|w ws] eqn:Hsplit.
    + exact (proj2 (split_from_nil s [] Hsplit)).
    + exfalso. rewrite fmap_cons in Hnil.
      pose proof (split_from_tokens s [] (Forall_nil_2 _)) as Hall.
      rewrite Hsplit in Hall. apply Forall_cons in Hall as [[Hw _] _].
      revert Hnil. apply join_not_nil, word_piece_not_nil. exact Hw.
  - intros Hblank. unfold split.
    rewrite (split_from_blank s Hblank). reflexivity.
Qed.

(** X12. When no token has its normal form in the dictionary (an empty
    dictionary, for one), the word-based path returns the tokens joined
    by single spaces, whatever the flag: the input with its whitespace
    normalised. *)
Theorem en_result_no_hit (d : gmap (list N) (list N)) (show : bool)
    (s : list N) :
  Forall (fun w => d !! _preprocess_eng w = None) (split s) ->
  en_result d show s = join (u " ") (split s).
Proof.
  intros Hmiss. rewrite en_result_pieces. f_equal.
  induction Hmiss as [|w ws Hw _ IH]; [reflexivity|].
  rewrite fmap_cons, IH. unfold word_piece. rewrite Hw. reflexivity.
Qed.

Lemma en_result_no_hit_witness :
  en_result hello_dict true (u "  Good   day. ") = u "Good day.".
Proof.
  rewrite (en_result_no_hit hello_dict true (u "  Good   day. ")).
  - vm_compute. reflexivity.
  - by_decide.
Defined.

Lemma preprocess_twice (text : list N) :
  _preprocess_eng (_preprocess_eng text) = _preprocess_eng text.
Proof.
  rewrite (preprocess_flat_map (_preprocess_eng text)).
  apply flat_map_keeps. intros c Hc.
  apply normalize_char_keeps. exact (preprocess_output_normal text c Hc).
Qed.

(** X13. A dictionary key that is not in normal form (it has an
    uppercase letter, a period, a comma or a line break) is never hit by
    the word-based path: removing it changes no result. *)
Theorem en_result_key_not_normal (d : gmap (list N) (list N)) (show : bool)
    (k s : list N) :
  _preprocess_eng k <> k ->
  en_result (delete k d) show s = en_result d show s.
Proof.
  intros Hk. rewrite !en_result_pieces. f_equal.
  apply list_fmap_ext. intros _ tok _. unfold word_piece.
  rewrite lookup_delete_ne; [reflexivity|].
  intros ->. apply Hk. apply preprocess_twice.
Qed.

Lemma en_result_key_not_normal_witness :
  en_result (delete (u "Hello") (<[u "Hello" := u "x"]> hello_dict)) false
            (u "Hello")
  = en_result (<[u "Hello" := u "x"]> hello_dict) false (u "Hello").
Proof.
  apply (en_result_key_not_normal _ false (u "Hello") (u "Hello")).
  vm_compute. discriminate.
Defined.

(** ** The character-based path *)

Lemma zh_raw_result_exists (d : gmap (list N) (list N)) (show : bool)
    (s : list N) :
  exists out, zh_raw_result d show s = Some out /\ Segmented d show s out.
Proof.
  destruct (zh_while_segments d show s (length s) 0 [])
    as (pieces & Hrun & Hseg); [lia|].
  exists (concat pieces). split; [|exact Hseg].
  apply zh_raw_result_of_Segmented. exact Hseg.
Qed.

(** X14. One turn of the loop moves the cursor forward by one to six
    characters, never past the end of the input, and appends exactly one
    piece. *)
Theorem zh_body_cursor (d : gmap (list N) (list N)) (show : bool)
    (chars : list N) (i : nat) (ch : N) (parts : list (list N)) :
  chars !! i = Some ch ->
  (i < (zh_body d show chars i ch parts).1 <= length chars)%nat
  /\ ((zh_body d show chars i ch parts).1 <= i + 6)%nat
  /\ exists piece, (zh_body d show chars i ch parts).2 = parts ++ [piece].
Proof.
  intros Hch. pose proof (lookup_lt_Some _ _ _ Hch) as Hi.
  unfold zh_body, allow_words_search. cbv zeta.
  destruct (d !! [ch]) as [ipa|]; [cbn; split; [lia|split; [lia|eauto]]|].
  pose proof (find_match_spec d chars i) as Hfind.
  destruct (find_match d chars i) as [[|c0 w]|];
    [cbn; split; [lia|split; [lia|eauto]] | |
     cbn; split; [lia|split; [lia|eauto]]].
  destruct Hfind as (L & ipa & HL & Hfit & Hw & _).
  assert (Hlen : length (c0 :: w) = L).
  { rewrite Hw, length_take, length_drop. lia. }
  rewrite Hlen. cbn [fst snd]. split; [lia|split; [lia|eauto]].
Qed.

Lemma zh_body_cursor_witness :
  (1 < (zh_body two_six_dict false (u "abcdefgh") 1 98 [u "a"]).1 <= 8)%nat.
Proof.
  apply (zh_body_cursor two_six_dict false (u "abcdefgh") 1 98 [u "a"]).
  reflexivity.
Defined.

(** X15. A character that is a key is always a token of its own,
    whatever longer keys start with it: its IPA is emitted and the rest
    of the input is segmented from the next character. *)
Theorem zh_direct_lookup_first (d : gmap (list N) (list N)) (show : bool)
    (c : N) (rest ipa : list N) :
  d !! [c] = Some ipa ->
  zh_raw_result d show (c :: rest)
  = (fun out => hit_part show [c] ipa ++ out) <$> zh_raw_result d show rest.
Proof.
  intros Hc.
  destruct (zh_raw_result_exists d show rest) as (out & Hrun & Hseg).
  rewrite Hrun. cbn [fmap option_fmap option_map].
  apply zh_raw_result_of_Segmented, seg_direct; assumption.
Qed.

Lemma zh_direct_lookup_first_witness :
  zh_raw_result abc_dict false (u "abc")
  = (fun out => hit_part false (u "a") (u "x") ++ out)
      <$> zh_raw_result abc_dict false (u "bc").
Proof.
  apply (zh_direct_lookup_first abc_dict false 97 (u "bc") (u "x")).
  vm_compute. reflexivity.
Defined.

Lemma head_take_cons (c : N) (rest : list N) (L : nat) :
  (1 <= L)%nat -> head (take L (c :: rest)) = Some c.
Proof. destruct L; [lia|reflexivity]. Qed.

(** X16. A character with which no key starts is copied as it is, with
    nothing added around it, and the rest of the input is segmented from
    the next character. *)
Theorem zh_copy_through (d : gmap (list N) (list N)) (show : bool)
    (c : N) (rest : list N) :
  (forall k, is_Some (d !! k) -> head k <> Some c) ->
  zh_raw_result d show (c :: rest) = cons c <$> zh_raw_result d show rest.
Proof.
  intros Hc.
  assert (Hnone : forall L, (1 <= L)%nat -> d !! take L (c :: rest) = None).
  { intros L HL. apply eq_None_not_Some. intros Hsome.
    exact (Hc _ Hsome (head_take_cons c rest L HL)). }
  destruct (zh_raw_result_exists d show rest) as (out & Hrun & Hseg).
  rewrite Hrun. cbn [fmap option_fmap option_map].
  apply zh_raw_result_of_Segmented, seg_copy; [|intros; apply Hnone; lia|].
  - exact (Hnone 1%nat (le_n 1)).
  - exact Hseg.
Qed.

Lemma zh_copy_through_witness :
  zh_raw_result abc_dict true (u " abc")
  = cons 32 <$> zh_raw_result abc_dict true (u "abc").
Proof.
  apply (zh_copy_through abc_dict true 32 (u "abc")).
  intros k [v Hk]. unfold abc_dict in Hk.
  apply elem_of_list_to_map_2 in Hk.
  rewrite !elem_of_cons, elem_of_nil in Hk.
  destruct Hk as [Hk|[Hk|[Hk|[]]]]; injection Hk as -> _; discriminate.
Defined.

(** Only the keys of one to six characters are ever looked up. *)
Lemma Segmented_agree (d d' : gmap (list N) (list N)) (show : bool)
    (s out : list N) :
  (forall k, (1 <= length k <= 6)%nat -> d !! k = d' !! k) ->
  Segmented d show s out -> Segmented d' show s out.
Proof.
  intros Hagree Hseg.
  induction Hseg as [ | c rest ipa out Hd _ IH
                      | c rest L ipa out Hd HL Hfit Hipa Hmax _ IH
                      | c rest out Hd Hnone _ IH ].
  - constructor.
  - apply seg_direct; [|exact IH].
    rewrite <- Hagree by (cbn; lia). exact Hd.
  - apply seg_longest; try assumption.
    + rewrite <- Hagree by (cbn; lia). exact Hd.
    + rewrite <- Hagree by (rewrite length_take; lia). exact Hipa.
    + intros L' HL' Hfit'.
      rewrite <- Hagree by (rewrite length_take; lia). apply Hmax; assumption.
  - apply seg_copy; [| |exact IH].
    + rewrite <- Hagree by (cbn; lia). exact Hd.
    + intros L HL' Hfit'.
      rewrite <- Hagree by (rewrite length_take; lia). apply Hnone; assumption.
Qed.

(** X17. The character-based path looks at keys of one to six characters
    only: two dictionaries that agree on those keys give the same
    result, so an entry longer than six characters is never matched. *)
Theorem zh_only_short_keys (d d' : gmap (list N) (list N)) (show : bool)
    (s : list N) :
  (forall k, (1 <= length k <= 6)%nat -> d !! k = d' !! k) ->
  zh_raw_result d show s = zh_raw_result d' show s.
Proof.
  intros Hagree.
  destruct (zh_raw_result_exists d show s) as (out & Hrun & Hseg).
  rewrite Hrun. symmetry.
  apply zh_raw_result_of_Segmented.
  exact (Segmented_agree d d' show s out Hagree Hseg).
Qed.

Lemma zh_only_short_keys_witness :
  zh_raw_result (<[u "abcdefg" := u "long"]> abc_dict) false (u "abcdefg")
  = zh_raw_result abc_dict false (u "abcdefg").
Proof.
  apply (zh_only_short_keys _ abc_dict false (u "abcdefg")).
  intros k Hk. apply lookup_insert_ne. intros <-.
  vm_compute in Hk. lia.
Defined.

(** What a dictionary of single characters makes of one character. *)
Lemma zh_single_chars (d : gmap (list N) (list N)) (show : bool)
    (s : list N) :
  (forall k, is_Some (d !! k) -> length k = 1%nat) ->
  Segmented d show s
    (flat_map (fun c => match d !! [c] with
                        | Some ipa => hit_part show [c] ipa
                        | None => [c]
                        end) s).
Proof.
  intros Hone. induction s as [|c s IH]; [constructor|].
  cbn [flat_map]. destruct (d !! [c]) as [ipa|] eqn:Hc.
  - apply seg_direct; assumption.
  - apply (seg_copy d show c s); [exact Hc| |exact IH].
    intros L HL Hfit. apply eq_None_not_Some. intros Hsome.
    pose proof (Hone _ Hsome) as Hlen. rewrite length_take in Hlen.
    assert (L = 1%nat) as -> by lia.
    change (take 1 (c :: s)) with [c] in Hsome. rewrite Hc in Hsome.
    destruct Hsome as [? Hsome]. discriminate Hsome.
Qed.

(** X18. With a dictionary whose keys are all single characters, the
    character-based path works character by character: each character
    that is a key becomes its piece and every other one is copied. *)
Theorem zh_single_character_keys (d : gmap (list N) (list N)) (show : bool)
    (s : list N) :
  (forall k, is_Some (d !! k) -> length k = 1%nat) ->
  zh_raw_result d show s
  = Some (flat_map (fun c => match d !! [c] with
                             | Some ipa => hit_part show [c] ipa
                             | None => [c]
                             end) s).
Proof.
  intros Hone. apply zh_raw_result_of_Segmented.
  apply zh_single_chars. exact Hone.
Qed.

Lemma zh_single_character_keys_witness :
  zh_raw_result {[ u "中" := u "tsʊŋ˥" ]} true (u "中 中")
  = Some (u "中/tsʊŋ˥/ 中/tsʊŋ˥/").
Proof.
  rewrite (zh_single_character_keys {[ u "中" := u "tsʊŋ˥" ]} true (u "中 中")).
  - vm_compute. reflexivity.
  - intros k [v Hk]. apply lookup_singleton_Some in Hk as [<- _].
    reflexivity.
Defined.

(** X19. When no key starts with a character of the input (an empty
    dictionary or an empty input, for instance), the raw result of the
    character-based path is the input itself. *)
Theorem zh_no_key_identity (d : gmap (list N) (list N)) (show : bool)
    (s : list N) :
  (forall k c, is_Some (d !! k) -> head k = Some c -> c ∉ s) ->
  zh_raw_result d show s = Some s.
Proof.
  intros Hfree. apply zh_raw_result_of_Segmented.
  induction s as [|c s IH]; [constructor|].
  assert (Hnone : forall L, (1 <= L)%nat -> d !! take L (c :: s) = None).
  { intros L HL. apply eq_None_not_Some. intros Hsome.
    apply (Hfree _ c Hsome (head_take_cons c s L HL)). left. }
  apply seg_copy.
  - exact (Hnone 1%nat (le_n 1)).
  - intros L HL _. apply Hnone. lia.
  - apply IH. intros k x Hk Hx Hin.
    apply (Hfree k x Hk Hx). right. exact Hin.
Qed.

Lemma zh_no_key_identity_witness :
  zh_raw_result ∅ true (u "中文") = Some (u "中文").
Proof.
  apply (zh_no_key_identity ∅ true (u "中文")).
  intros k c [v Hk]. rewrite lookup_empty in Hk. discriminate Hk.
Defined.

(** ** The dictionary store and the dispatcher *)

Lemma source_dict_entries : source_dict = list_to_map source_entries.
Proof. reflexivity. Qed.

(** Every entry of the registry names the file after its code. *)
Lemma registry_filenames (lang name filename : list N) :
  source_dict !! lang = Some (name, filename) ->
  filename = lang ++ u ".json".
Proof.
  rewrite source_dict_entries. intros H.
  apply elem_of_list_to_map_2 in H. unfold source_entries in H.
  rewrite !elem_of_cons, elem_of_nil in H.
  repeat (destruct H as [H|H]; [injection H as -> _ ->; reflexivity|]).
  destruct H.
Qed.

(** What the loader does, case by case. *)
Lemma load_cases (lang : list N) (fs : gmap (list N) file) :
  (source_dict !! lang = None
   /\ _load_ipa_dict lang fs
      = (Raise (ValueError (u "Unsupported language code: " ++ lang)), []))
  \/ (is_Some (source_dict !! lang)
      /\ _load_ipa_dict lang fs
         = open_json (u "data/" ++ lang ++ u ".json") fs).
Proof.
  unfold _load_ipa_dict.
  destruct (source_dict !! lang) as [[name filename]|] eqn:Hreg.
  - right. split; [eauto|].
    rewrite (registry_filenames _ _ _ Hreg). reflexivity.
  - left. split; reflexivity.
Qed.

(** The dispatcher after the loader: the loader's error and log are
    passed on, and a loaded dictionary always gives a result. *)
Lemma translate_after_load (input lang : list N) (show : bool)
    (fmt : list N) (fs : gmap (list N) file) :
  match _load_ipa_dict lang fs with
  | (Ok d, log) =>
      exists ipa,
        translate_to_ipa input lang show fmt fs = (Ok ipa, log)
        /\ ipa = (if decide (lang ∈ [u "zh_hans"; u "yue"; u "zh_hant"])
                  then zh_format fmt (default [] (zh_raw_result d show input))
                  else en_result d show input)
  | (Raise e, log) => translate_to_ipa input lang show fmt fs = (Raise e, log)
  | (OutOfFuel, log) =>
      translate_to_ipa input lang show fmt fs = (OutOfFuel, log)
  end.
Proof.
  unfold translate_to_ipa, _translate_to_ipa_zh, _translate_to_ipa_en, io_bind.
  case_decide; cbv beta;
    destruct (_load_ipa_dict lang fs) as [[d|e|] log]; try reflexivity.
  - destruct (zh_raw_result_exists d show input) as (out & Hrun & _).
    rewrite Hrun. cbn. rewrite app_nil_r. eauto.
  - cbn. rewrite app_nil_r. eauto.
Qed.


(** X21. For a registered code the only file opened is the one named
    after the code, [data/<code>.json], whether it can be read or not;
    for any other code no file is opened. *)
Theorem translate_opens_its_file (input lang : list N) (show : bool)
    (fmt : list N) (fs : gmap (list N) file) :
  (translate_to_ipa input lang show fmt fs).2
  = if decide (is_Some (source_dict !! lang))
    then [u "data/" ++ lang ++ u ".json"] else [].
Proof.
  pose proof (translate_after_load input lang show fmt fs) as H.
  assert (Hlog : (translate_to_ipa input lang show fmt fs).2
                 = (_load_ipa_dict lang fs).2).
  { destruct (_load_ipa_dict lang fs) as [[d|e|] log];
      [destruct H as (ipa & -> & _)|rewrite H|rewrite H]; reflexivity. }
  rewrite Hlog.
  destruct (load_cases lang fs) as [[Hnone ->]|[Hsome ->]].
  - rewrite decide_False; [reflexivity|].
    rewrite Hnone. intros [? Hx]. discriminate Hx.
  - rewrite decide_True by exact Hsome. unfold open_json.
    destruct (fs !! (u "data/" ++ lang ++ u ".json")) as [[|d]|]; reflexivity.
Qed.

(** X22. A translation depends on the file store through the one file
    of its language only. *)
Theorem translate_depends_on_its_file (input lang : list N) (show : bool)
    (fmt : list N) (fs fs' : gmap (list N) file) :
  fs !! (u "data/" ++ lang ++ u ".json") = fs' !! (u "data/" ++ lang ++ u ".json")
  -> translate_to_ipa input lang show fmt fs
     = translate_to_ipa input lang show fmt fs'.
Proof.
  intros Hfile.
  assert (Hload : _load_ipa_dict lang fs = _load_ipa_dict lang fs').
  { destruct (load_cases lang fs) as [[Hn1 ->]|[Hs1 ->]],
             (load_cases lang fs') as [[Hn2 ->]|[Hs2 ->]].
    - reflexivity.
    - rewrite Hn1 in Hs2. destruct Hs2 as [? Hx]. discriminate Hx.
    - rewrite Hn2 in Hs1. destruct Hs1 as [? Hx]. discriminate Hx.
    - unfold open_json. rewrite Hfile. reflexivity. }
  pose proof (translate_after_load input lang show fmt fs) as H.
  pose proof (translate_after_load input lang show fmt fs') as H'.
  rewrite <- Hload in H'.
  destruct (_load_ipa_dict lang fs) as [[d|e|] log].
  - destruct H as (ipa & -> & ->). destruct H' as (ipa' & -> & ->).
    reflexivity.
  - rewrite H, H'. reflexivity.
  - rewrite H, H'. reflexivity.
Qed.

Lemma translate_depends_on_its_file_witness :
  translate_to_ipa (u "hello") (u "en_US") false (u "org") demo_fs
  = translate_to_ipa (u "hello") (u "en_US") false (u "org")
      (delete (u "data/yue.json") demo_fs).
Proof.
  apply (translate_depends_on_its_file (u "hello") (u "en_US") false (u "org")).
  vm_compute. reflexivity.
Defined.

(** ** The routes *)

Section route_properties.
Variable json_error_text : list N -> list N.

(** The four ways a request to [/ipa] can end. *)
Lemma get_ipa_cases (payload : IpaRequest) (fs : gmap (list N) file) :
  let path := u "data/" ++ lang_code payload ++ u ".json" in
  (source_dict !! lang_code payload = None
   /\ exists detail,
        get_ipa json_error_text payload fs = (HTTPException 400 detail, []))
  \/ (is_Some (source_dict !! lang_code payload)
      /\ (fs !! path = None \/ fs !! path = Some Malformed)
      /\ exists exc,
           translate_to_ipa (input_string payload) (lang_code payload)
             (default false (show_word_form payload))
             (default (u "") (format payload)) fs = (Raise exc, [path])
           /\ get_ipa json_error_text payload fs
              = (HTTPException 500
                   (u "IPA translation failed: "
                    ++ exn_str json_error_text exc), [path]))
  \/ (is_Some (source_dict !! lang_code payload)
      /\ exists d ipa_result,
           fs !! path = Some (Json d)
           /\ translate_to_ipa (input_string payload) (lang_code payload)
                (default false (show_word_form payload))
                (default (u "") (format payload)) fs = (Ok ipa_result, [path])
           /\ get_ipa json_error_text payload fs
              = (Reply {| ipa := ipa_result;
                          response_format := default (u "") (format payload) |},
                 [path])).
Proof.
  intros path. unfold get_ipa.
  pose proof (translate_after_load (input_string payload) (lang_code payload)
                (default false (show_word_form payload))
                (default (u "") (format payload)) fs) as H.
  destruct (load_cases (lang_code payload) fs) as [[Hnone _]|[Hsome Hload]].
  - left. rewrite Hnone. eauto.
  - right. rewrite Hload in H. unfold open_json in H. fold path in H.
    destruct Hsome as [entry Hentry]. rewrite Hentry.
    destruct (fs !! path) as [[|d]|] eqn:Hfile.
    + left. rewrite H. split; [eauto|]. split; [auto|]. eauto.
    + right. destruct H as (ipa_result & H & _). rewrite H.
      split; [eauto|]. eauto 10.
    + left. rewrite H. split; [eauto|]. split; [auto|]. eauto.
Qed.



(** X25. [list_all_language] returns the codes of the registry, each
    once, and these are exactly the codes that [get_ipa] does not turn
    down with status 400. *)
Theorem list_all_language_accepted :
  exists codes,
    list_all_language = Reply codes
    /\ NoDup codes
    /\ forall (payload : IpaRequest) (fs : gmap (list N) file),
         lang_code payload ∈ codes
         <-> forall detail,
               (get_ipa json_error_text payload fs).1
               <> HTTPException 400 detail.
Proof.
  exists source_entries.*1. split; [reflexivity|]. split; [by_decide|].
  intros payload fs.
  assert (Hreg : lang_code payload ∈ source_entries.*1
                 <-> source_dict !! lang_code payload <> None).
  { rewrite source_dict_entries, <- not_elem_of_list_to_map.
    split; [tauto|]. intros H.
    destruct (decide (lang_code payload ∈ source_entries.*1)); tauto. }
  rewrite Hreg.
  destruct (get_ipa_cases payload fs)
    as [(Hnone & detail & Hget)
       |[(Hsome & _ & exc & _ & Hget)
        |(Hsome & d & ipa_result & _ & _ & Hget)]];
    rewrite Hget; cbn [fst].
  - split; [congruence|]. intros H. exfalso. exact (H detail eq_refl).
  - split; [discriminate|]. intros _ Hx. rewrite Hx in Hsome.
    destruct Hsome as [? Hy]. discriminate Hy.
  - split; [discriminate|]. intros _ Hx. rewrite Hx in Hsome.
    destruct Hsome as [? Hy]. discriminate Hy.
Qed.
End route_properties.


